(** * FrameUtils.hpp: frame keys and the bounded frame list

    A shallow embedding of [native/ffreader/src/FrameUtils.hpp]:
    [formatKey], the [FrameInfo] constructor and the [FrameInfoList]
    container with its two methods [addFrame] and [getFrame].

    Conventions.
    - [std::string] is [string]; [operator<<] on the [ostringstream]
      appends, so the stream contents are a concatenation.
    - [float] and [double] are IEEE-754 values given by sign, integral
      significand and binary exponent ([FFinite s m e] is
      [(-1)^s * m * 2^e]); every such value is a dyadic rational.
    - [std::shared_ptr<FrameInfo>] is an optional address; [None] is
      [nullptr].  The objects behind the addresses live in a store
      [heap : loc -> FrameInfo] which the two methods only read.
    - Dereferencing [nullptr] has no defined behaviour: a method that does
      it has no result ([None]).
    - The stream is imbued with the classic locale (the default): no digit
      grouping, decimal point ['.']. *)

From Stdlib Require Import ZArith QArith Qabs String Ascii Bool Lia.
From Stdlib Require Import Decimal DecimalString DecimalN.
From Stdlib Require Import List.
Import ListNotations.

Local Open Scope Z_scope.

(* ================================================================= *)
(** ** IEEE values *)

Inductive ieee : Type :=
| FZero (s : bool)
| FInf (s : bool)
| FNaN (s : bool)
| FFinite (s : bool) (m : positive) (e : Z).

(** The C++ [float] (binary32) and [double] (binary64). *)
Definition float := ieee.
Definition double := ieee.

(** Well-formed binary32 data: a 24-bit significand, normalised unless the
    exponent is the least one.  The results on keys below hold for every
    value of [ieee], so for these in particular. *)
Definition is_binary32 (x : float) : bool :=
  match x with
  | FFinite _ m e =>
      (Z.pos m <? 2 ^ 24) && (-149 <=? e) && (e <=? 104)
      && ((2 ^ 23 <=? Z.pos m) || (e =? -149))
  | _ => true
  end.

Definition sign_bit (x : ieee) : bool :=
  match x with
  | FZero s | FInf s | FNaN s | FFinite s _ _ => s
  end.

Definition is_finite (x : ieee) : bool :=
  match x with
  | FZero _ | FFinite _ _ _ => true
  | FInf _ | FNaN _ => false
  end.

(** The rational a finite value denotes (0 for the others). *)
Definition F2Q (x : ieee) : Q :=
  match x with
  | FFinite s m e =>
      let z := if s then Z.neg m else Z.pos m in
      if 0 <=? e then inject_Z (z * 2 ^ e)
      else Qmake z (Z.to_pos (2 ^ (- e)))
  | _ => 0%Q
  end.

(** [num / den] rounded to the nearest integer, ties to the even one
    ([den > 0], [num >= 0]): the default rounding direction. *)
Definition round_half_even (num den : Z) : Z :=
  let q := num / den in
  let r := num mod den in
  if 2 * r <? den then q
  else if den <? 2 * r then q + 1
  else if Z.even q then q else q + 1.

(** Conversion [int -> float] of a non-zero magnitude [p]: exact up to 24
    bits, otherwise rounded to 24 bits. *)
Definition float_of_magnitude (s : bool) (p : positive) : float :=
  let d := Z.log2 (Z.pos p) + 1 in
  if d <=? 24 then FFinite s (Z.to_pos (Z.pos p * 2 ^ (24 - d))) (d - 24)
  else
    let sh := d - 24 in
    let m := round_half_even (Z.pos p) (2 ^ sh) in
    if m =? 2 ^ 24 then FFinite s (Z.to_pos (2 ^ 23)) (sh + 1)
    else FFinite s (Z.to_pos m) sh.

(** The implicit conversion of an [int] argument to a [float] parameter or
    member. *)
Definition float_of_int (n : Z) : float :=
  match n with
  | Z0 => FZero false
  | Zpos p => float_of_magnitude false p
  | Zneg p => float_of_magnitude true p
  end.

(** The range of a 32-bit [int]. *)
Definition int_range (n : Z) : Prop := - 2 ^ 31 <= n < 2 ^ 31.

(* ================================================================= *)
(** ** Fixed notation with precision 6 *)

Local Open Scope string_scope.

(** The magnitude [m * 2^e] times [10^6], rounded to an integer. *)
Definition scaled6 (m : positive) (e : Z) : Z :=
  if (0 <=? e)%Z then (Z.pos m * 2 ^ e * 10 ^ 6)%Z
  else round_half_even (Z.pos m * 10 ^ 6) (2 ^ (- e)).

Definition digit (d : Z) : ascii := ascii_of_nat (48 + Z.to_nat d).

(** Decimal digits of a natural number, without leading zeros. *)
Definition decimal (q : Z) : string :=
  NilZero.string_of_uint (N.to_uint (Z.to_N q)).

(** Exactly six decimal digits of [r], [0 <= r < 10^6]. *)
Definition frac6 (r : Z) : string :=
  String (digit (r / 100000 mod 10))
    (String (digit (r / 10000 mod 10))
       (String (digit (r / 1000 mod 10))
          (String (digit (r / 100 mod 10))
             (String (digit (r / 10 mod 10))
                (String (digit (r mod 10)) EmptyString))))).

Definition fixed_of_scaled (n : Z) : string :=
  decimal (n / 10 ^ 6) ++ "." ++ frac6 (n mod 10 ^ 6).

Definition sign_str (s : bool) : string := if s then "-" else "".

(** [oss << std::fixed << std::setprecision(6) << frameNum]: the text the
    stream receives for a [float] (promoted to [double] without change of
    value). *)
Definition put_fixed6 (x : float) : string :=
  match x with
  | FZero s => sign_str s ++ fixed_of_scaled 0
  | FInf s => sign_str s ++ "inf"
  | FNaN s => sign_str s ++ "nan"
  | FFinite s m e => sign_str s ++ fixed_of_scaled (scaled6 m e)
  end.

(** The magnitude of a finite value as a fraction [mag_num / mag_den] with
    a power of two below, and its rounded number of millionths. *)
Definition mag_num (x : float) : Z :=
  match x with
  | FFinite _ m e => if (0 <=? e)%Z then (Z.pos m * 2 ^ e)%Z else Z.pos m
  | _ => 0%Z
  end.

Definition mag_den (x : float) : Z :=
  match x with
  | FFinite _ m e => if (0 <=? e)%Z then 1%Z else (2 ^ (- e))%Z
  | _ => 1%Z
  end.

Definition millionths (x : float) : Z :=
  match x with
  | FFinite _ m e => scaled6 m e
  | _ => 0%Z
  end.

(** The text without its sign: [put_fixed6 x] is the sign followed by
    [unsigned_text x]. *)
Definition unsigned_text (x : float) : string :=
  match x with
  | FZero _ => fixed_of_scaled 0
  | FInf _ => "inf"
  | FNaN _ => "nan"
  | FFinite _ m e => fixed_of_scaled (scaled6 m e)
  end.

(** [formatKey], lines 38-44. *)
Definition formatKey (file : string) (frameNum : float) (hasZoom : bool)
  : string :=
  let zStr := if hasZoom then "-z" else "" in
  file ++ "-" ++ put_fixed6 frameNum ++ zStr.

(** The character [c] occurs in [s]. *)
Fixpoint occurs (c : ascii) (s : string) : Prop :=
  match s with
  | EmptyString => False
  | String c' s' => c' = c \/ occurs c s'
  end.

Definition is_digit (c : ascii) : bool :=
  (48 <=? nat_of_ascii c)%nat && (nat_of_ascii c <=? 57)%nat.

Fixpoint all_digits (s : string) : bool :=
  match s with
  | EmptyString => true
  | String c s' => is_digit c && all_digits s'
  end.

(** The number a string of decimal digits denotes, read from the left. *)
Definition digit_value (c : ascii) : Z := (Z.of_nat (nat_of_ascii c) - 48)%Z.

Fixpoint digits_value_from (acc : Z) (s : string) : Z :=
  match s with
  | EmptyString => acc
  | String c s' => digits_value_from (10 * acc + digit_value c)%Z s'
  end.

Definition digits_value (s : string) : Z := digits_value_from 0 s.

(** The number the text [ip.fp] with six fraction digits denotes. *)
Definition fixed_value (ip fp : string) : Q :=
  Qmake (digits_value ip * 10 ^ 6 + digits_value fp) 1000000.

(** The last character of a string (a null character for the empty one). *)
Fixpoint last_char (s : string) : ascii :=
  match s with
  | EmptyString => Ascii.zero
  | String c EmptyString => c
  | String _ s' => last_char s'
  end.

(** What precedes the last ['-'] of a key without zoom suffix. *)
Definition before_number (file : string) (frameNum : float) : string :=
  if sign_bit frameNum then file ++ "-" else file.

(** Two frame numbers differ by at least [1e-6].  A NaN is at no distance
    from anything; an infinity is infinitely far from everything but
    itself. *)
Definition differ_by_1e6 (a b : float) : Prop :=
  match a, b with
  | FNaN _, _ | _, FNaN _ => False
  | FInf s1, FInf s2 => s1 <> s2
  | FInf _, _ | _, FInf _ => True
  | _, _ => (1 # 1000000 <= Qabs (F2Q a - F2Q b))%Q
  end.

(* ================================================================= *)
(** ** Records of the header *)

Definition loc := positive.

(** [std::shared_ptr<T>]: [None] is [nullptr]. *)
Definition shared_ptr := option loc.
Definition nullptr : shared_ptr := None.

(** [struct ImageMotion], [struct FrameRect], [struct InterpResult]; the
    members [x], [y], [dt], [valid], [width], [height] carry the name of
    their struct in front. *)
Record ImageMotion := {
  motion_x : double;
  motion_y : double;
  motion_dt : Z;
  motion_valid : bool
}.

Record FrameRect := {
  rect_x : Z;
  rect_y : Z;
  rect_width : Z;
  rect_height : Z
}.

Record InterpResult := {
  blendedFrame : shared_ptr;
  shiftedFrame : shared_ptr
}.

(** [generateInterpolatedFrame], lines 140-143, is declared without a body:
    two frames, [pctAtoB], [roi] and [blend] to one
    [const std::shared_ptr<FrameInfo>]. *)
Definition generateInterpolatedFrame_type : Type :=
  shared_ptr -> shared_ptr -> double -> FrameRect -> bool -> shared_ptr.

(** [class FrameInfo].  A member the constructor leaves uninitialised holds
    [None]. *)
Record FrameInfo := {
  frameNum : float;
  numFrames : option Z;
  fps : option double;
  totalBytes : option Z;
  totalFrames : option Z;
  data : shared_ptr;
  width : option Z;
  height : option Z;
  linesize : option Z;
  timestamp : option Z;
  tsMicro : option Z;
  file : string;
  debug : string;
  motion : ImageMotion;
  key : string
}.

(** [FrameInfo::FrameInfo(int frameNum, const std::string &file)], lines
    75-78.  In the body [frameNum] is the [int] parameter, converted to
    [float] at the call of [formatKey]. *)
Definition FrameInfo_ctor (frameNum_arg : Z) (file_arg : string) : FrameInfo :=
  {| frameNum := float_of_int frameNum_arg;
     numFrames := None;
     fps := None;
     totalBytes := None;
     totalFrames := None;
     data := nullptr;
     width := None;
     height := None;
     linesize := None;
     timestamp := None;
     tsMicro := None;
     file := file_arg;
     debug := "";
     motion := {| motion_x := FZero false; motion_y := FZero false;
                  motion_dt := 0; motion_valid := false |};
     key := formatKey file_arg (float_of_int frameNum_arg) false |}.

(* ================================================================= *)
(** ** [class FrameInfoList] *)

Local Close Scope string_scope.
Local Close Scope Z_scope.
Local Open Scope list_scope.

(** The object: its [std::list] member.  [maxSize] is a [const] member with
    the initialiser 32. *)
Record FrameInfoList := { frameList : list shared_ptr }.

Definition maxSize : nat := 32.

(** A freshly constructed list object. *)
Definition empty_list : FrameInfoList := {| frameList := [] |}.

(** A method acts on [this] and may have no defined result. *)
Definition M (A : Type) : Type := FrameInfoList -> option (A * FrameInfoList).

Definition ret {A} (a : A) : M A := fun this => Some (a, this).

Definition bind {A B} (m : M A) (k : A -> M B) : M B :=
  fun this =>
    match m this with
    | Some (a, this') => k a this'
    | None => None
    end.

Definition undefined {A} : M A := fun _ => None.

Definition get_frameList : M (list shared_ptr) :=
  fun this => Some (frameList this, this).

Definition set_frameList (l : list shared_ptr) : M unit :=
  fun _ => Some (tt, {| frameList := l |}).

Declare Scope method_scope.
Delimit Scope method_scope with method.
Notation "x <- m ;; k" := (bind m (fun x => k))
  (at level 61, m at next level, right associativity) : method_scope.
Notation "m ;; k" := (bind m (fun _ => k))
  (at level 61, right associativity) : method_scope.

(** An iterator is a position; [end()] is the length. *)
Definition iterator := nat.

(** [std::find_if(first, last, pred)] with a predicate that may dereference
    a null pointer. *)
Fixpoint find_if (pred : shared_ptr -> option bool) (l : list shared_ptr)
  : option iterator :=
  match l with
  | [] => Some 0%nat
  | f :: l' =>
      match pred f with
      | None => None
      | Some true => Some 0%nat
      | Some false => option_map S (find_if pred l')
      end
  end.

(** [list::erase(it)], [list::pop_back()], [list::push_front(x)]. *)
Definition erase (it : iterator) (l : list shared_ptr) : list shared_ptr :=
  firstn it l ++ skipn (S it) l.

Definition pop_back (l : list shared_ptr) : list shared_ptr := removelast l.

Definition push_front (x : shared_ptr) (l : list shared_ptr)
  : list shared_ptr := x :: l.

(** A list object whose entries are the non-null pointers [ls]. *)
Definition holding (ls : list loc) : FrameInfoList :=
  {| frameList := map Some ls |}.

(** The calls a client can make on the object. *)
Inductive call : Type :=
| AddFrame (frame : shared_ptr)
| GetFrame (k : string).

Section Methods.

Variable heap : loc -> FrameInfo.

(** [p->key] *)
Definition key_of (p : shared_ptr) : option string :=
  match p with
  | Some a => Some (key (heap a))
  | None => None
  end.

(** The lambda of [addFrame]: [f->key == frame->key]. *)
Definition same_key (frame f : shared_ptr) : option bool :=
  match key_of f, key_of frame with
  | Some kf, Some k => Some (String.eqb kf k)
  | _, _ => None
  end.

(** The lambda of [getFrame]: [f->key == key]. *)
Definition has_key (k : string) (f : shared_ptr) : option bool :=
  match key_of f with
  | Some kf => Some (String.eqb kf k)
  | None => None
  end.

(** [FrameInfoList::addFrame], lines 97-110. *)
Definition addFrame (frame : shared_ptr) : M unit :=
  (l <- get_frameList ;;
   match find_if (same_key frame) l with
   | None => undefined
   | Some it =>
       if negb (it =? List.length l)%nat then
         set_frameList (push_front frame (erase it l))
       else if (maxSize <=? List.length l)%nat then
         set_frameList (push_front frame (pop_back l))
       else
         set_frameList (push_front frame l)
   end)%method.

(** [FrameInfoList::getFrame], lines 117-125. *)
Definition getFrame (k : string) : M shared_ptr :=
  (l <- get_frameList ;;
   match find_if (has_key k) l with
   | None => undefined
   | Some it =>
       if negb (it =? List.length l)%nat then ret (nth it l nullptr)
       else ret nullptr
   end)%method.

Definition exec (c : call) : M unit :=
  match c with
  | AddFrame frame => addFrame frame
  | GetFrame k => (_ <- getFrame k ;; ret tt)%method
  end.

(** A sequence of calls, in program order. *)
Fixpoint run (cs : list call) : M unit :=
  match cs with
  | [] => ret tt
  | c :: cs' => (exec c ;; run cs')%method
  end.

(** The object after a sequence of calls on a fresh one. *)
Definition after (cs : list call) : option FrameInfoList :=
  option_map snd (run cs empty_list).

(** The states a client reaches from a fresh object by calls whose frame
    arguments are not null. *)
Inductive reachable : FrameInfoList -> Prop :=
| reach_empty : reachable empty_list
| reach_add (a : loc) (this this' : FrameInfoList) :
    reachable this ->
    addFrame (Some a) this = Some (tt, this') ->
    reachable this'
| reach_get (k : string) (r : shared_ptr) (this this' : FrameInfoList) :
    reachable this ->
    getFrame k this = Some (r, this') ->
    reachable this'.

(** The keys held, front to back. *)
Definition keys (this : FrameInfoList) : list (option string) :=
  map key_of (frameList this).

Definition key_at (a : loc) : string := key (heap a).

(** No frame of [ls] has the key [k]. *)
Definition absent (k : string) (ls : list loc) : Prop :=
  forall y, In y ls -> key_at y <> k.

(** The well-formed states: non-null entries, pairwise distinct keys, at
    most [maxSize] of them. *)
Definition well_formed (this : FrameInfoList) : Prop :=
  exists ls, this = holding ls /\ NoDup (map key_at ls)
             /\ (length ls <= maxSize)%nat.

(** What a run can leave behind: a well-formed list, or the single null
    entry a null insertion into the empty list leaves. *)
Definition completed (this : FrameInfoList) : Prop :=
  well_formed this \/ this = {| frameList := [nullptr] |}.

(** The key of [b] is not the key of [a]. *)
Definition other_key (a b : loc) : bool :=
  negb (String.eqb (key_at b) (key_at a)).

(** Recency order of a history of inserted frames: latest first, a key
    only at its latest insertion, at most [maxSize] of them. *)
Fixpoint latest_first (newest_first : list loc) : list loc :=
  match newest_first with
  | [] => []
  | a :: older => a :: filter (other_key a) (latest_first older)
  end.

Definition recency (inserted : list loc) : list loc :=
  firstn maxSize (latest_first (List.rev inserted)).

(** The frames a sequence of calls inserts, in program order. *)
Fixpoint inserted (cs : list call) : list shared_ptr :=
  match cs with
  | [] => []
  | AddFrame frame :: cs' => frame :: inserted cs'
  | GetFrame _ :: cs' => inserted cs'
  end.

(** The answer of a lookup on non-null entries: the first entry with the
    key [k], or [nullptr]. *)
Fixpoint first_entry (k : string) (ls : list loc) : shared_ptr :=
  match ls with
  | [] => nullptr
  | y :: ls' => if String.eqb (key_at y) k then Some y else first_entry k ls'
  end.

End Methods.

(* ================================================================= *)
(** ** Sample data *)

(** [1.0f], [-1.0f] and [1.5f]. *)
Definition one : float := FFinite false 8388608 (-23).
Definition minus_one : float := FFinite true 8388608 (-23).
Definition one_and_half : float := FFinite false 12582912 (-23).

(** A store in which address [a] holds [FrameInfo(a, "race.mp4")]. *)
Definition sample_heap : loc -> FrameInfo :=
  fun a => FrameInfo_ctor (Z.pos a) "race.mp4".

(** The addresses 1, ..., [n]. *)
Definition first_locs (n : nat) : list loc := map Pos.of_nat (seq 1 n).

(* ================================================================= *)
(** ** The frame list: lemmas *)

Section FrameList.

Variable heap : loc -> FrameInfo.

Local Abbreviation key_at := (key_at heap).
Local Abbreviation same_key := (same_key heap).
Local Abbreviation has_key := (has_key heap).
Local Abbreviation addFrame := (addFrame heap).
Local Abbreviation getFrame := (getFrame heap).
Local Abbreviation reachable := (reachable heap).

Local Abbreviation absent := (absent heap).
Local Abbreviation keys := (keys heap).
Local Abbreviation other_key := (other_key heap).
Local Abbreviation well_formed := (well_formed heap).
Local Abbreviation recency := (recency heap).
Local Abbreviation completed := (completed heap).

Lemma same_key_true a x : key_at x = key_at a ->
  same_key (Some a) (Some x) = Some true.
Proof.
  unfold same_key, key_at; simpl. intros ->. now rewrite String.eqb_refl.
Qed.

Lemma same_key_false a x : key_at x <> key_at a ->
  same_key (Some a) (Some x) = Some false.
Proof.
  unfold same_key, key_at; simpl. intros H.
  now apply String.eqb_neq in H; rewrite H.
Qed.

Lemma has_key_true k x : key_at x = k -> has_key k (Some x) = Some true.
Proof.
  unfold has_key, key_at; simpl. intros ->. now rewrite String.eqb_refl.
Qed.

Lemma has_key_false k x : key_at x <> k -> has_key k (Some x) = Some false.
Proof.
  unfold has_key, key_at; simpl. intros H.
  now apply String.eqb_neq in H; rewrite H.
Qed.

(** [find_if] stops at the first frame the predicate accepts ... *)
Lemma find_if_hit pred l1 x l2 :
  (forall y, In y l1 -> pred (Some y) = Some false) ->
  pred (Some x) = Some true ->
  find_if pred (map Some (l1 ++ x :: l2)) = Some (length l1).
Proof.
  intros Hl1 Hx. induction l1 as [|y l1 IH]; simpl.
  - now rewrite Hx.
  - rewrite (Hl1 y (or_introl eq_refl)), IH; [reflexivity|].
    intros z Hz. apply Hl1. now right.
Qed.

(** ... and returns [end()] when it accepts none. *)
Lemma find_if_miss pred ls :
  (forall y, In y ls -> pred (Some y) = Some false) ->
  find_if pred (map Some ls) = Some (length ls).
Proof.
  intros H. induction ls as [|y ls IH]; simpl; [reflexivity|].
  rewrite (H y (or_introl eq_refl)), IH; [reflexivity|].
  intros z Hz. apply H. now right.
Qed.

Lemma erase_middle (l1 : list loc) x l2 :
  erase (length l1) (map Some (l1 ++ x :: l2)) = map Some (l1 ++ l2).
Proof.
  unfold erase. induction l1 as [|y l1 IH]; simpl; [reflexivity|].
  simpl in IH. now rewrite IH.
Qed.

Lemma deref_middle (l1 : list loc) x l2 :
  nth (length l1) (map Some (l1 ++ x :: l2)) nullptr = Some x.
Proof. induction l1 as [|y l1 IH]; simpl; auto. Qed.

Lemma pop_back_map (ls : list loc) :
  pop_back (map Some ls) = map Some (removelast ls).
Proof.
  unfold pop_back. induction ls as [|y [|z ls] IH]; simpl; try reflexivity.
  simpl in IH. now rewrite IH.
Qed.

Lemma removelast_map_Some (ls : list loc) :
  removelast (map Some ls) = map Some (removelast ls).
Proof. exact (pop_back_map ls). Qed.

(** Either the first frame with key [k] splits the list, or none has
    it. *)
Lemma first_with_key k ls :
  (exists l1 x l2, ls = l1 ++ x :: l2 /\ key_at x = k /\ absent k l1)
  \/ absent k ls.
Proof.
  induction ls as [|y ls IH].
  - right. intros ? [].
  - destruct (string_dec (key_at y) k) as [E|N].
    + left. exists [], y, ls. repeat split; auto. intros ? [].
    + destruct IH as [(l1 & x & l2 & -> & Hx & Hl1)|Hab].
      * left. exists (y :: l1), x, l2. repeat split; auto.
        intros z [<-|Hz]; auto.
      * right. intros z [<-|Hz]; auto.
Qed.

(** The iterator [length l1] into [l1 ++ x :: l2] is not [end()]. *)
Ltac not_at_end :=
  match goal with
  | |- context [negb (?i =? ?n)%nat] =>
      replace (i =? n)%nat with false
        by (symmetry; apply Nat.eqb_neq;
            rewrite length_map, length_app; simpl; lia)
  end; simpl negb; cbv iota.

(** *** What [addFrame] does, case by case *)

Lemma addFrame_present a l1 x l2 :
  key_at x = key_at a -> absent (key_at a) l1 ->
  addFrame (Some a) (holding (l1 ++ x :: l2))
  = Some (tt, holding (a :: l1 ++ l2)).
Proof.
  intros Hx Hl1. unfold addFrame, bind, get_frameList, holding; cbn [frameList].
  rewrite (find_if_hit (same_key (Some a)) l1 x l2).
  - not_at_end.
    unfold set_frameList, push_front. now rewrite erase_middle.
  - intros y Hy. apply same_key_false. now apply Hl1.
  - now apply same_key_true.
Qed.

Lemma addFrame_absent a ls :
  absent (key_at a) ls ->
  addFrame (Some a) (holding ls)
  = Some (tt, holding (a :: if (maxSize <=? length ls)%nat
                            then removelast ls else ls)).
Proof.
  intros Hab. unfold addFrame, bind, get_frameList, holding; cbn [frameList].
  rewrite (find_if_miss (same_key (Some a)) ls).
  - rewrite length_map, Nat.eqb_refl. simpl negb. cbv iota.
    destruct (maxSize <=? length ls)%nat;
      unfold set_frameList, push_front; [|reflexivity].
    now rewrite pop_back_map.
  - intros y Hy. apply same_key_false. now apply Hab.
Qed.

(** *** What [getFrame] does, case by case *)

Lemma getFrame_present k l1 x l2 :
  key_at x = k -> absent k l1 ->
  getFrame k (holding (l1 ++ x :: l2))
  = Some (Some x, holding (l1 ++ x :: l2)).
Proof.
  intros Hx Hl1. unfold getFrame, bind, get_frameList, holding; cbn [frameList].
  rewrite (find_if_hit (has_key k) l1 x l2).
  - not_at_end. unfold ret.
    now rewrite deref_middle.
  - intros y Hy. apply has_key_false. now apply Hl1.
  - now apply has_key_true.
Qed.

Lemma getFrame_absent k ls :
  absent k ls ->
  getFrame k (holding ls) = Some (nullptr, holding ls).
Proof.
  intros Hab. unfold getFrame, bind, get_frameList, holding; cbn [frameList].
  rewrite (find_if_miss (has_key k) ls).
  - now rewrite length_map, Nat.eqb_refl.
  - intros y Hy. apply has_key_false. now apply Hab.
Qed.

(** A completed [getFrame] hands back the object it was called on. *)
Lemma getFrame_state k this r this' :
  getFrame k this = Some (r, this') -> this' = this.
Proof.
  unfold getFrame, bind, get_frameList, undefined, ret.
  destruct (find_if (has_key k) (frameList this)) as [it|]; [|discriminate].
  destruct (negb (it =? length (frameList this))%nat); now intros [= _ <-].
Qed.

(** On non-null entries [getFrame] always completes. *)
Lemma getFrame_total k ls :
  exists r, getFrame k (holding ls) = Some (r, holding ls).
Proof.
  destruct (first_with_key k ls) as [(l1 & x & l2 & -> & Hx & Hl1)|Hab].
  - exists (Some x). now apply getFrame_present.
  - exists nullptr. now apply getFrame_absent.
Qed.

(** *** Invariants *)

Lemma keys_holding ls : keys (holding ls) = map Some (map key_at ls).
Proof.
  unfold keys, holding; cbn [frameList].
  rewrite !map_map. reflexivity.
Qed.

Lemma absent_iff k ls : absent k ls <-> ~ In k (map key_at ls).
Proof.
  unfold absent. rewrite in_map_iff. split.
  - intros H (y & Hy & Hin). exact (H y Hin Hy).
  - intros H y Hin Hy. apply H. now exists y.
Qed.

Lemma in_keys_holding k ls :
  In (Some k) (keys (holding ls)) <-> In k (map key_at ls).
Proof.
  rewrite keys_holding. split.
  - intros H. apply in_map_iff in H. now destruct H as (k' & [= ->] & H).
  - intros H. now apply in_map.
Qed.

Lemma NoDup_keys_holding ls :
  NoDup (keys (holding ls)) <-> NoDup (map key_at ls).
Proof.
  rewrite keys_holding. split.
  - apply NoDup_map_inv.
  - intros H. induction H as [|k l Hk Hl IH]; simpl; constructor; auto.
    intros Hin. apply in_map_iff in Hin.
    now destruct Hin as (k' & [= ->] & Hin).
Qed.

Lemma map_removelast_key (ls : list loc) :
  map key_at (removelast ls) = removelast (map key_at ls).
Proof.
  induction ls as [|y [|z ls] IH]; simpl; try reflexivity.
  simpl in IH. now rewrite IH.
Qed.

Lemma In_removelast (A : Type) (y : A) (l : list A) :
  In y (removelast l) -> In y l.
Proof.
  induction l as [|x [|z l] IH]; simpl; auto.
  intros [->|H]; [now left|right]. now apply IH.
Qed.

Lemma NoDup_removelast (A : Type) (l : list A) :
  NoDup l -> NoDup (removelast l).
Proof.
  intros H. destruct l as [|x l]; [exact H|].
  assert (Hne : x :: l <> []) by discriminate.
  rewrite (app_removelast_last x Hne) in H.
  now apply NoDup_remove_1 in H; rewrite app_nil_r in H.
Qed.

Lemma length_removelast_cons (A : Type) (l : list A) :
  l <> [] -> S (length (removelast l)) = length l.
Proof.
  intros Hne. destruct l as [|x l]; [congruence|].
  rewrite (app_removelast_last x Hne) at 2.
  rewrite length_app. simpl. lia.
Qed.

Lemma addFrame_well_formed a this this' :
  well_formed this -> addFrame (Some a) this = Some (tt, this') ->
  well_formed this'.
Proof.
  intros (ls & -> & Hnd & Hlen) Hadd.
  destruct (first_with_key (key_at a) ls)
    as [(l1 & x & l2 & -> & Hx & Hl1)|Hab].
  - rewrite (addFrame_present a l1 x l2 Hx Hl1) in Hadd.
    injection Hadd as <-. exists (a :: l1 ++ l2). split; [reflexivity|].
    rewrite map_app in Hnd. simpl in Hnd. split.
    + simpl. rewrite map_app. constructor.
      * rewrite <- Hx. now apply NoDup_remove_2 in Hnd.
      * now apply NoDup_remove_1 in Hnd.
    + rewrite length_app in Hlen. simpl in *. rewrite length_app. lia.
  - rewrite (addFrame_absent a ls Hab) in Hadd. apply absent_iff in Hab.
    destruct (Nat.leb_spec maxSize (length ls)) as [Hfull|Hroom];
      injection Hadd as <-.
    + exists (a :: removelast ls). split; [reflexivity|]. split.
      * cbn [map]. constructor.
        -- intros Hin. apply Hab. apply in_map_iff in Hin.
           destruct Hin as (y & Hy & Hin). apply in_map_iff.
           exists y. split; [exact Hy|]. now apply In_removelast.
        -- rewrite map_removelast_key. now apply NoDup_removelast.
      * assert (ls <> []) by (intros ->; now apply Nat.nle_succ_0 in Hfull).
        cbn [length]. now rewrite length_removelast_cons.
    + exists (a :: ls). split; [reflexivity|]. split.
      * cbn [map]. now constructor.
      * exact Hroom.
Qed.

Lemma reachable_well_formed this : reachable this -> well_formed this.
Proof.
  induction 1 as [|a this this' _ IH Hadd|k r this this' _ IH Hget].
  - exists []. split; [reflexivity|]. split; [constructor|].
    unfold maxSize. simpl. lia.
  - exact (addFrame_well_formed a this this' IH Hadd).
  - now rewrite (getFrame_state k this r this' Hget).
Qed.

(** *** The list is the recency order of the insertions *)

Lemma filter_absent a ls :
  absent (key_at a) ls -> filter (other_key a) ls = ls.
Proof.
  intros Hab. induction ls as [|y ls IH]; simpl; [reflexivity|].
  unfold other_key at 1.
  destruct (String.eqb_spec (key_at y) (key_at a)) as [E|N].
  - exfalso. exact (Hab y (or_introl eq_refl) E).
  - simpl. rewrite IH; [reflexivity|].
    intros z Hz. apply Hab. now right.
Qed.

Lemma filter_splits a l1 x l2 :
  key_at x = key_at a -> absent (key_at a) l1 -> absent (key_at a) l2 ->
  filter (other_key a) (l1 ++ x :: l2) = l1 ++ l2.
Proof.
  intros Hx H1 H2. rewrite filter_app. simpl.
  unfold other_key at 2. rewrite Hx, String.eqb_refl. simpl.
  now rewrite !filter_absent.
Qed.

Lemma in_filter_other a ls k :
  In k (map key_at (filter (other_key a) ls)) ->
  In k (map key_at ls) /\ k <> key_at a.
Proof.
  intros H. apply in_map_iff in H. destruct H as (y & <- & Hy).
  apply filter_In in Hy. destruct Hy as [Hy Hk]. split.
  - now apply in_map.
  - unfold other_key in Hk. apply negb_true_iff in Hk.
    now apply String.eqb_neq.
Qed.

Lemma NoDup_filter_other a ls :
  NoDup (map key_at ls) -> NoDup (map key_at (filter (other_key a) ls)).
Proof.
  induction ls as [|y ls IH]; simpl; intros H; [constructor|].
  inversion H as [|? ? Hy Hls]; subst.
  destruct (other_key a y); simpl; auto.
  constructor; auto.
  intros Hin. apply in_filter_other in Hin. now destruct Hin.
Qed.

Lemma latest_first_NoDup h : NoDup (map key_at (latest_first heap h)).
Proof.
  induction h as [|a h IH]; simpl; constructor.
  - intros Hin. apply in_filter_other in Hin. now destruct Hin.
  - now apply NoDup_filter_other.
Qed.

Lemma absent_after_split a l1 x l2 :
  NoDup (map key_at (l1 ++ x :: l2)) -> key_at x = key_at a ->
  absent (key_at a) l2.
Proof.
  intros Hnd Hx y Hy E. rewrite map_app in Hnd. simpl in Hnd.
  apply NoDup_remove_2 in Hnd. apply Hnd. apply in_or_app. right.
  rewrite Hx, <- E. now apply in_map.
Qed.

Lemma absent_firstn k n ls : absent k ls -> absent k (firstn n ls).
Proof.
  intros H y Hy. apply H. rewrite <- (firstn_skipn n ls).
  apply in_or_app. now left.
Qed.

Lemma firstn_cons_max (a : loc) ls :
  firstn maxSize (a :: ls) = a :: firstn (pred maxSize) ls.
Proof. reflexivity. Qed.

(** One insertion into the first [maxSize] frames of a duplicate-free
    order [d] gives the first [maxSize] frames of the order with the new
    frame put in front and its key removed behind it. *)
Lemma addFrame_firstn a d :
  NoDup (map key_at d) ->
  addFrame (Some a) (holding (firstn maxSize d))
  = Some (tt, holding (firstn maxSize (a :: filter (other_key a) d))).
Proof.
  intros Hnd.
  pose (n := pred maxSize).
  assert (Hmax : maxSize = S n) by reflexivity.
  rewrite firstn_cons_max. fold n. clearbody n.
  destruct (first_with_key (key_at a) d)
    as [(l1 & x & l2 & -> & Hx & Hl1)|Hab].
  - pose proof (absent_after_split a l1 x l2 Hnd Hx) as Hl2.
    rewrite (filter_splits a l1 x l2 Hx Hl1 Hl2).
    destruct (Nat.le_gt_cases (length l1) n) as [Hle|Hgt].
    + rewrite Hmax, !firstn_app.
      rewrite (firstn_all2 l1 (n := S n)) by lia.
      rewrite (firstn_all2 l1 (n := n)) by lia.
      replace (S n - length l1)%nat with (S (n - length l1)) by lia.
      rewrite firstn_cons.
      now rewrite (addFrame_present a l1 x _ Hx Hl1).
    + rewrite Hmax, !firstn_app.
      replace (S n - length l1)%nat with 0%nat by lia.
      replace (n - length l1)%nat with 0%nat by lia.
      rewrite !firstn_O, !app_nil_r.
      rewrite addFrame_absent by now apply absent_firstn.
      rewrite Hmax, length_firstn.
      replace (S n <=? Nat.min (S n) (length l1))%nat with true
        by (symmetry; apply Nat.leb_le; lia).
      now rewrite removelast_firstn by lia.
  - rewrite (filter_absent a d Hab).
    rewrite addFrame_absent by now apply absent_firstn.
    rewrite Hmax, length_firstn.
    destruct (Nat.leb_spec (S n) (Nat.min (S n) (length d))) as [Hfull|Hroom].
    + now rewrite removelast_firstn by lia.
    + rewrite !firstn_all2 by lia. reflexivity.
Qed.

Lemma recency_snoc h a :
  recency (h ++ [a])
  = firstn maxSize (a :: filter (other_key a) (latest_first heap (rev h))).
Proof. unfold recency. now rewrite rev_unit. Qed.

Lemma addFrame_recency h a :
  addFrame (Some a) (holding (recency h))
  = Some (tt, holding (recency (h ++ [a]))).
Proof.
  rewrite recency_snoc. apply addFrame_firstn, latest_first_NoDup.
Qed.

(** Lookups do not matter and the insertions are replayed in order. *)
Lemma run_recency cs : forall frames h,
  inserted cs = map Some frames ->
  run heap cs (holding (recency h))
  = Some (tt, holding (recency (h ++ frames))).
Proof.
  induction cs as [|[p|k] cs IH]; intros frames h Hins; simpl in Hins.
  - destruct frames; [|discriminate]. now rewrite app_nil_r.
  - destruct frames as [|a frames]; [discriminate|].
    injection Hins as -> Hins.
    cbn [run exec]. unfold bind.
    rewrite addFrame_recency, (IH frames (h ++ [a]) Hins).
    now rewrite <- app_assoc.
  - cbn [run exec]. unfold bind.
    destruct (getFrame_total k (recency h)) as [r ->].
    unfold ret. now apply IH.
Qed.

(** *** Every completed run, null arguments included *)

Lemma addFrame_completed p this this' :
  completed this -> addFrame p this = Some (tt, this') -> completed this'.
Proof.
  intros [Hwf| ->] Hadd.
  - destruct p as [a|].
    + left. exact (addFrame_well_formed a this this' Hwf Hadd).
    + destruct Hwf as (ls & -> & _). destruct ls as [|y ls].
      * right. now injection Hadd as <-.
      * discriminate.
  - destruct p; discriminate.
Qed.

Lemma exec_completed c this this' :
  completed this -> exec heap c this = Some (tt, this') -> completed this'.
Proof.
  destruct c as [p|k]; cbn [exec].
  - apply addFrame_completed.
  - intros H. unfold bind.
    destruct (getFrame k this) as [[r this1]|] eqn:Hget; [|discriminate].
    apply getFrame_state in Hget. subst this1.
    unfold ret. now intros [= <-].
Qed.

Lemma run_completed cs : forall this this',
  completed this -> run heap cs this = Some (tt, this') -> completed this'.
Proof.
  induction cs as [|c cs IH]; intros this this' H; cbn [run].
  - unfold ret. now intros [= <-].
  - unfold bind. destruct (exec heap c this) as [[[] this1]|] eqn:Hc; [|discriminate].
    apply IH. exact (exec_completed c this this1 H Hc).
Qed.

Lemma completed_size this :
  completed this -> (length (frameList this) <= maxSize)%nat.
Proof.
  intros [(ls & -> & _ & Hlen)|E]; [|subst this].
  - unfold holding; cbn [frameList]. now rewrite length_map.
  - apply Nat.leb_le. reflexivity.
Qed.

Lemma inserted_adds (frames : list loc) :
  inserted (map (fun a => AddFrame (Some a)) frames) = map Some frames.
Proof.
  induction frames as [|a frames IH]; [reflexivity|].
  cbn [map inserted]. now rewrite IH.
Qed.

Lemma reachable_recency frames : reachable (holding (recency frames)).
Proof.
  induction frames as [|a frames IH] using rev_ind.
  - apply reach_empty.
  - exact (reach_add heap a _ _ IH (addFrame_recency frames a)).
Qed.

(** After a completed [addFrame] the argument is the front entry. *)
Lemma addFrame_front p this this' :
  addFrame p this = Some (tt, this') ->
  exists rest, this' = {| frameList := p :: rest |}.
Proof.
  unfold addFrame, bind, get_frameList, undefined, set_frameList, push_front.
  destruct (find_if (same_key p) (frameList this)) as [it|]; [|discriminate].
  destruct (negb (it =? length (frameList this))%nat);
    [|destruct (maxSize <=? length (frameList this))%nat];
    intros [= <-]; eexists; reflexivity.
Qed.

Lemma getFrame_front a rest :
  getFrame (key_at a) {| frameList := Some a :: rest |}
  = Some (Some a, {| frameList := Some a :: rest |}).
Proof.
  unfold getFrame, bind, get_frameList; cbn [frameList find_if].
  now rewrite has_key_true.
Qed.

End FrameList.

(* ================================================================= *)
(** ** Keys: lemmas *)

Section Strings.

Local Open Scope string_scope.

Lemma append_nil_r s : s ++ "" = s.
Proof. induction s as [|c s IH]; simpl; congruence. Qed.

Lemma append_assoc s t u : (s ++ t) ++ u = s ++ t ++ u.
Proof. induction s as [|c s IH]; simpl; congruence. Qed.

Lemma length_append s t :
  String.length (s ++ t) = (String.length s + String.length t)%nat.
Proof. induction s as [|c s IH]; simpl; congruence. Qed.

Lemma occurs_append c s t : occurs c (s ++ t) <-> occurs c s \/ occurs c t.
Proof. induction s as [|c' s IH]; simpl; tauto. Qed.

Lemma last_char_append s c t : last_char (s ++ String c t) = last_char (String c t).
Proof.
  induction s as [|c' s IH]; [reflexivity|].
  change (String c' s ++ String c t) with (String c' (s ++ String c t)).
  cbn [last_char]. destruct (s ++ String c t) eqn:E; [|exact IH].
  destruct s; discriminate.
Qed.

(** A string is cut in one way only at the last occurrence of [c]. *)
Lemma cut_at_last c : forall l1 l2 r1 r2,
  l1 ++ String c r1 = l2 ++ String c r2 ->
  ~ occurs c r1 -> ~ occurs c r2 ->
  l1 = l2 /\ r1 = r2.
Proof.
  induction l1 as [|a l1 IH]; intros [|b l2] r1 r2 E H1 H2; simpl in E.
  - injection E as E. now split.
  - injection E as <- E. exfalso. apply H1. rewrite E.
    apply occurs_append. right. now left.
  - injection E as -> E. exfalso. apply H2. rewrite <- E.
    apply occurs_append. right. now left.
  - injection E as -> E. destruct (IH l2 r1 r2 E H1 H2) as [-> ->].
    now split.
Qed.

Lemma all_digits_append s t :
  all_digits (s ++ t) = all_digits s && all_digits t.
Proof.
  induction s as [|c s IH]; simpl; [reflexivity|].
  now rewrite IH, andb_assoc.
Qed.

Lemma all_digits_occurs c s :
  all_digits s = true -> is_digit c = false -> ~ occurs c s.
Proof.
  induction s as [|c' s IH]; simpl; [tauto|].
  intros H Hc [->|Ho]; apply andb_true_iff in H; destruct H as [Hd Hs].
  - congruence.
  - now apply IH.
Qed.

End Strings.

Section Digits.

Local Open Scope Z_scope.
Local Open Scope string_scope.

Lemma digit_cases d : 0 <= d < 10 ->
  d = 0 \/ d = 1 \/ d = 2 \/ d = 3 \/ d = 4 \/ d = 5 \/ d = 6 \/ d = 7
  \/ d = 8 \/ d = 9.
Proof. lia. Qed.

Lemma digit_is_digit d : 0 <= d < 10 -> is_digit (digit d) = true.
Proof.
  intros H. destruct (digit_cases d H) as [E|H'];
    repeat (destruct H' as [E|H']); subst d; reflexivity.
Qed.

Lemma digit_inj d d' : 0 <= d < 10 -> 0 <= d' < 10 ->
  digit d = digit d' -> d = d'.
Proof.
  intros H H' E. apply (f_equal nat_of_ascii) in E. unfold digit in E.
  rewrite !nat_ascii_embedding in E by lia. lia.
Qed.

Lemma mod10_range x : 0 <= x mod 10 < 10.
Proof. apply Z.mod_pos_bound. lia. Qed.

Lemma frac6_digits r : all_digits (frac6 r) = true.
Proof.
  unfold frac6. cbn [all_digits].
  now rewrite !digit_is_digit by apply mod10_range.
Qed.

Lemma frac6_length r : String.length (frac6 r) = 6%nat.
Proof. reflexivity. Qed.

(** Six digits determine a number below [10^6]. *)
Lemma six_digits r : 0 <= r < 10 ^ 6 ->
  r = 100000 * (r / 100000 mod 10) + 10000 * (r / 10000 mod 10)
      + 1000 * (r / 1000 mod 10) + 100 * (r / 100 mod 10)
      + 10 * (r / 10 mod 10) + r mod 10.
Proof.
  intros H. change (10 ^ 6) with 1000000 in H.
  pose proof (Z.div_mod r 10 ltac:(lia)) as E0.
  pose proof (Z.div_mod (r / 10) 10 ltac:(lia)) as E1.
  pose proof (Z.div_mod (r / 100) 10 ltac:(lia)) as E2.
  pose proof (Z.div_mod (r / 1000) 10 ltac:(lia)) as E3.
  pose proof (Z.div_mod (r / 10000) 10 ltac:(lia)) as E4.
  pose proof (Z.div_mod (r / 100000) 10 ltac:(lia)) as E5.
  rewrite Z.div_div in E1, E2, E3, E4, E5 by lia.
  change (10 * 10) with 100 in E1.
  change (100 * 10) with 1000 in E2.
  change (1000 * 10) with 10000 in E3.
  change (10000 * 10) with 100000 in E4.
  change (100000 * 10) with 1000000 in E5.
  rewrite (Z.div_small r 1000000) in E5 by lia.
  lia.
Qed.

Lemma frac6_inj r r' : 0 <= r < 10 ^ 6 -> 0 <= r' < 10 ^ 6 ->
  frac6 r = frac6 r' -> r = r'.
Proof.
  intros H H' E. unfold frac6 in E.
  injection E as E5 E4 E3 E2 E1 E0.
  apply digit_inj in E5, E4, E3, E2, E1, E0; try apply mod10_range.
  rewrite (six_digits r H), (six_digits r' H'). congruence.
Qed.

Lemma string_of_uint_digits d :
  all_digits (NilEmpty.string_of_uint d) = true.
Proof. induction d; cbn [NilEmpty.string_of_uint all_digits]; auto. Qed.

Lemma decimal_digits q : all_digits (decimal q) = true.
Proof.
  unfold decimal, NilZero.string_of_uint.
  destruct (N.to_uint (Z.to_N q)); try reflexivity;
    apply string_of_uint_digits.
Qed.

Lemma to_uint_nonnil n : N.to_uint n <> Nil.
Proof.
  destruct n; [discriminate|]. apply DecimalPos.Unsigned.to_uint_nonnil.
Qed.

Lemma decimal_inj q q' : 0 <= q -> 0 <= q' -> decimal q = decimal q' -> q = q'.
Proof.
  intros H H' E. unfold decimal in E.
  apply (f_equal NilZero.uint_of_string) in E.
  rewrite !NilZero.usu in E by apply to_uint_nonnil.
  injection E as E. apply DecimalN.Unsigned.to_uint_inj in E. lia.
Qed.

Lemma dot_not_digit : is_digit "." = false.
Proof. reflexivity. Qed.

Lemma dash_not_digit : is_digit "-" = false.
Proof. reflexivity. Qed.

Lemma fixed_of_scaled_inj n n' : 0 <= n -> 0 <= n' ->
  fixed_of_scaled n = fixed_of_scaled n' -> n = n'.
Proof.
  intros H H' E. unfold fixed_of_scaled in E.
  assert (Hr : 0 <= n mod 10 ^ 6 < 10 ^ 6) by (apply Z.mod_pos_bound; lia).
  assert (Hr' : 0 <= n' mod 10 ^ 6 < 10 ^ 6) by (apply Z.mod_pos_bound; lia).
  apply (cut_at_last ".") in E;
    try (apply all_digits_occurs; [apply frac6_digits | exact dot_not_digit]).
  destruct E as [Eq Er].
  apply decimal_inj in Eq; try (apply Z.div_pos; lia).
  apply frac6_inj in Er; auto.
  rewrite (Z.div_mod n (10 ^ 6)), (Z.div_mod n' (10 ^ 6)) by lia.
  congruence.
Qed.

Lemma fixed_of_scaled_no_dash n : ~ occurs "-" (fixed_of_scaled n).
Proof.
  unfold fixed_of_scaled. rewrite occurs_append. intros [H|H].
  - revert H. apply all_digits_occurs;
      [apply decimal_digits | exact dash_not_digit].
  - destruct H as [H|H]; [discriminate|]. revert H.
    apply all_digits_occurs; [apply frac6_digits | exact dash_not_digit].
Qed.

Lemma fixed_of_scaled_dot n : occurs "." (fixed_of_scaled n).
Proof.
  unfold fixed_of_scaled. apply occurs_append. right. now left.
Qed.

(** A whole number of millionths prints with six zeros. *)
Lemma fixed_of_scaled_whole v :
  fixed_of_scaled (v * 10 ^ 6) = decimal v ++ ".000000".
Proof.
  unfold fixed_of_scaled.
  rewrite Z.div_mul, Z.mod_mul by lia. reflexivity.
Qed.

End Digits.

Section Rounding.

Local Open Scope Z_scope.

Lemma round_half_even_exact q den :
  0 < den -> round_half_even (q * den) den = q.
Proof.
  intros H. unfold round_half_even.
  rewrite Z.div_mul, Z.mod_mul by lia.
  destruct (Z.ltb_spec (2 * 0) den); [reflexivity|lia].
Qed.

(** The rounded quotient is within half a unit of the exact one. *)
Lemma round_half_even_near num den :
  0 < den -> 0 <= num ->
  let n := round_half_even num den in
  0 <= n /\ 2 * n * den - den <= 2 * num <= 2 * n * den + den.
Proof.
  intros Hd Hn. unfold round_half_even.
  pose proof (Z.div_mod num den ltac:(lia)) as E.
  pose proof (Z.mod_pos_bound num den Hd) as Hr.
  pose proof (Z.div_pos num den Hn Hd) as Hq.
  set (q := num / den) in *. set (r := num mod den) in *.
  destruct (Z.ltb_spec (2 * r) den); [nia|].
  destruct (Z.ltb_spec den (2 * r)); [nia|].
  destruct (Z.even q); nia.
Qed.

Lemma pow2_not_multiple_of_5 k : 0 <= k -> 2 ^ k mod 5 <> 0.
Proof.
  revert k. apply natlike_ind; [discriminate|].
  intros k Hk IH. rewrite Z.pow_succ_r by exact Hk.
  rewrite Z.mul_mod by lia.
  pose proof (Z.mod_pos_bound (2 ^ k) 5 ltac:(lia)) as Hr.
  set (r := 2 ^ k mod 5) in *.
  assert (Hc : r = 1 \/ r = 2 \/ r = 3 \/ r = 4) by lia.
  destruct Hc as [E|[E|[E|E]]]; rewrite E; discriminate.
Qed.

(** Two dyadic fractions that round to the same number of millionths are
    less than a millionth apart. *)
Lemma same_millionths_close a1 a2 k1 k2 :
  0 <= a1 -> 0 <= a2 -> 0 <= k1 -> 0 <= k2 ->
  round_half_even (a1 * 10 ^ 6) (2 ^ k1)
  = round_half_even (a2 * 10 ^ 6) (2 ^ k2) ->
  10 ^ 6 * Z.abs (a1 * 2 ^ k2 - a2 * 2 ^ k1) < 2 ^ k1 * 2 ^ k2.
Proof.
  intros Ha1 Ha2 Hk1 Hk2 E.
  assert (Hd1 : 0 < 2 ^ k1) by (apply Z.pow_pos_nonneg; lia).
  assert (Hd2 : 0 < 2 ^ k2) by (apply Z.pow_pos_nonneg; lia).
  destruct (round_half_even_near (a1 * 10 ^ 6) (2 ^ k1) Hd1 ltac:(lia))
    as [Hn [L1 U1]].
  destruct (round_half_even_near (a2 * 10 ^ 6) (2 ^ k2) Hd2 ltac:(lia))
    as [_ [L2 U2]].
  rewrite <- E in L2, U2.
  set (n := round_half_even (a1 * 10 ^ 6) (2 ^ k1)) in *.
  assert (Hne : 10 ^ 6 * Z.abs (a1 * 2 ^ k2 - a2 * 2 ^ k1)
                <> 2 ^ k1 * 2 ^ k2).
  { intros Heq. apply (pow2_not_multiple_of_5 (k1 + k2)); [lia|].
    rewrite Z.pow_add_r, <- Heq by lia.
    change (10 ^ 6) with (200000 * 5).
    rewrite <- Z.mul_assoc, (Z.mul_comm 5), Z.mul_assoc.
    apply Z.mod_mul. lia. }
  change (10 ^ 6) with 1000000 in *.
  set (d1 := 2 ^ k1) in *. set (d2 := 2 ^ k2) in *.
  assert (2 * 1000000 * Z.abs (a1 * d2 - a2 * d1) <= 2 * (d1 * d2)); [|lia].
  assert (B1 : (2 * n * d1 - d1) * d2 <= 2 * (a1 * 1000000) * d2)
    by (apply Z.mul_le_mono_nonneg_r; lia).
  assert (B2 : 2 * (a1 * 1000000) * d2 <= (2 * n * d1 + d1) * d2)
    by (apply Z.mul_le_mono_nonneg_r; lia).
  assert (B3 : (2 * n * d2 - d2) * d1 <= 2 * (a2 * 1000000) * d1)
    by (apply Z.mul_le_mono_nonneg_r; lia).
  assert (B4 : 2 * (a2 * 1000000) * d1 <= (2 * n * d2 + d2) * d1)
    by (apply Z.mul_le_mono_nonneg_r; lia).
  lia.
Qed.

End Rounding.

Section Keys.

Local Open Scope Z_scope.
Local Open Scope string_scope.

Lemma put_fixed6_sign x :
  put_fixed6 x = sign_str (sign_bit x) ++ unsigned_text x.
Proof. destruct x; reflexivity. Qed.

Lemma unsigned_text_finite x :
  is_finite x = true -> unsigned_text x = fixed_of_scaled (millionths x).
Proof. destruct x; try discriminate; reflexivity. Qed.

Lemma unsigned_text_no_dash x : ~ occurs "-" (unsigned_text x).
Proof.
  destruct x; cbn [unsigned_text]; try apply fixed_of_scaled_no_dash;
    cbn [occurs]; intros H; repeat (destruct H as [H|H]; [discriminate|]);
    exact H.
Qed.

Lemma unsigned_text_not_z x : unsigned_text x <> "z".
Proof.
  destruct x; cbn [unsigned_text]; try discriminate; intros E;
    pose proof (fixed_of_scaled_dot 0) as H0;
    try pose proof (fixed_of_scaled_dot (scaled6 m e)) as H1;
    rewrite E in *; cbn [occurs] in *; intuition discriminate.
Qed.

Lemma mag_den_pow2 x : exists k, 0 <= k /\ mag_den x = 2 ^ k.
Proof.
  destruct x as [s|s|s|s m e]; cbn [mag_den]; try (exists 0; split; [lia|reflexivity]).
  destruct (Z.leb_spec 0 e).
  - exists 0. split; [lia|reflexivity].
  - exists (- e). split; [lia|reflexivity].
Qed.

Lemma mag_num_nonneg x : 0 <= mag_num x.
Proof.
  destruct x as [s|s|s|s m e]; cbn [mag_num]; try lia.
  destruct (Z.leb_spec 0 e); [|lia].
  apply Z.mul_nonneg_nonneg; [lia|]. apply Z.pow_nonneg. lia.
Qed.

Lemma millionths_rounds x :
  millionths x = round_half_even (mag_num x * 10 ^ 6) (mag_den x).
Proof.
  destruct x as [s|s|s|s m e]; cbn [millionths mag_num mag_den];
    try reflexivity.
  unfold scaled6. destruct (Z.leb_spec 0 e); [|reflexivity].
  now rewrite <- (Z.mul_1_r (Z.pos m * 2 ^ e * 10 ^ 6)),
    round_half_even_exact, Z.mul_1_r by lia.
Qed.

Lemma millionths_nonneg x : 0 <= millionths x.
Proof.
  rewrite millionths_rounds.
  destruct (mag_den_pow2 x) as (k & Hk & ->).
  apply round_half_even_near.
  - apply Z.pow_pos_nonneg; lia.
  - pose proof (mag_num_nonneg x). lia.
Qed.

(** The rational of a finite value, from its magnitude. *)
Lemma F2Q_mag x : is_finite x = true ->
  F2Q x = Qmake (if sign_bit x then - mag_num x else mag_num x)
                (Z.to_pos (mag_den x)).
Proof.
  destruct x as [s|s|s|s m e]; try discriminate; intros _;
    cbn [F2Q mag_num mag_den sign_bit].
  - now destruct s.
  - destruct (Z.leb_spec 0 e); destruct s; try reflexivity.
    unfold inject_Z. f_equal. lia.
Qed.

(** The distance hypothesis, over the integers. *)
Lemma differ_by_1e6_mag x y :
  is_finite x = true -> is_finite y = true -> sign_bit x = sign_bit y ->
  (1 # 1000000 <= Qabs (F2Q x - F2Q y))%Q ->
  mag_den x * mag_den y
  <= 10 ^ 6 * Z.abs (mag_num x * mag_den y - mag_num y * mag_den x).
Proof.
  intros Hx Hy Hs.
  rewrite (F2Q_mag x Hx), (F2Q_mag y Hy), <- Hs.
  destruct (mag_den_pow2 x) as (k1 & Hk1 & E1).
  destruct (mag_den_pow2 y) as (k2 & Hk2 & E2).
  assert (Hd1 : 0 < mag_den x) by (rewrite E1; apply Z.pow_pos_nonneg; lia).
  assert (Hd2 : 0 < mag_den y) by (rewrite E2; apply Z.pow_pos_nonneg; lia).
  unfold Qle, Qabs, Qminus, Qplus, Qopp. cbn [Qnum Qden].
  rewrite Pos2Z.inj_mul, !Z2Pos.id by lia.
  change (10 ^ 6) with 1000000.
  destruct (sign_bit x); intros H; lia.
Qed.

(** Equal unsigned texts of same-signed numbers: the numbers are less than
    a millionth apart. *)
Lemma unsigned_text_close x y :
  sign_bit x = sign_bit y -> unsigned_text x = unsigned_text y ->
  ~ differ_by_1e6 x y.
Proof.
  intros Hs E Hd.
  assert (Hinf : forall n, fixed_of_scaled n <> "inf").
  { intros n En. pose proof (fixed_of_scaled_dot n) as H.
    rewrite En in H. cbn [occurs] in H. intuition discriminate. }
  assert (Hnan : forall n, fixed_of_scaled n <> "nan").
  { intros n En. pose proof (fixed_of_scaled_dot n) as H.
    rewrite En in H. cbn [occurs] in H. intuition discriminate. }
  assert (Hboth : is_finite x = true /\ is_finite y = true).
  { destruct x, y; cbn [unsigned_text differ_by_1e6 sign_bit] in *;
      try contradiction; try discriminate; try (now split);
      try (exfalso; congruence);
      try (exfalso; eapply Hinf; first [exact E | symmetry; exact E]). }
  destruct Hboth as [Hx Hy].
  rewrite (unsigned_text_finite x Hx), (unsigned_text_finite y Hy) in E.
  apply fixed_of_scaled_inj in E; try apply millionths_nonneg.
  rewrite !millionths_rounds in E.
  assert (Hq : (1 # 1000000 <= Qabs (F2Q x - F2Q y))%Q)
    by (destruct x, y; try discriminate; exact Hd).
  pose proof (differ_by_1e6_mag x y Hx Hy Hs Hq) as Hz.
  destruct (mag_den_pow2 x) as (k1 & Hk1 & E1).
  destruct (mag_den_pow2 y) as (k2 & Hk2 & E2).
  rewrite E1, E2 in *.
  pose proof (same_millionths_close (mag_num x) (mag_num y) k1 k2
                (mag_num_nonneg x) (mag_num_nonneg y) Hk1 Hk2 E).
  lia.
Qed.

Lemma formatKey_plain f n :
  formatKey f n false = before_number f n ++ String "-" (unsigned_text n).
Proof.
  unfold formatKey, before_number.
  rewrite append_nil_r, put_fixed6_sign.
  destruct (sign_bit n); cbn [sign_str]; [|reflexivity].
  now rewrite append_assoc.
Qed.

Lemma formatKey_zoom f n :
  formatKey f n true = formatKey f n false ++ String "-" "z".
Proof.
  unfold formatKey. now rewrite append_nil_r, !append_assoc.
Qed.

Lemma dash_not_in_z : ~ occurs "-" "z".
Proof. cbn [occurs]. intuition discriminate. Qed.

Lemma plain_parts f1 n1 f2 n2 :
  sign_bit n1 = sign_bit n2 ->
  formatKey f1 n1 false = formatKey f2 n2 false ->
  f1 = f2 /\ unsigned_text n1 = unsigned_text n2.
Proof.
  intros Hs E. rewrite !formatKey_plain in E.
  apply cut_at_last in E; try apply unsigned_text_no_dash.
  destruct E as [Ef Et]. split; [|exact Et].
  unfold before_number in Ef. rewrite <- Hs in Ef.
  destruct (sign_bit n1); [|exact Ef].
  apply (cut_at_last "-") in Ef; cbn [occurs]; tauto.
Qed.

(** Equal keys of same-signed frame numbers have equal parts. *)
Lemma formatKey_parts f1 n1 z1 f2 n2 z2 :
  sign_bit n1 = sign_bit n2 ->
  formatKey f1 n1 z1 = formatKey f2 n2 z2 ->
  f1 = f2 /\ z1 = z2 /\ unsigned_text n1 = unsigned_text n2.
Proof.
  intros Hs E. destruct z1, z2.
  - rewrite !formatKey_zoom in E.
    apply cut_at_last in E; try exact dash_not_in_z.
    destruct (plain_parts f1 n1 f2 n2 Hs (proj1 E)). auto.
  - rewrite formatKey_zoom, (formatKey_plain f2) in E.
    apply cut_at_last in E;
      [|exact dash_not_in_z|apply unsigned_text_no_dash].
    destruct E as [_ E]. symmetry in E. now apply unsigned_text_not_z in E.
  - rewrite formatKey_zoom, (formatKey_plain f1) in E.
    apply cut_at_last in E;
      [|apply unsigned_text_no_dash|exact dash_not_in_z].
    destruct E as [_ E]. now apply unsigned_text_not_z in E.
  - destruct (plain_parts f1 n1 f2 n2 Hs E). auto.
Qed.

Lemma decimal_nonempty q : decimal q <> "".
Proof.
  unfold decimal, NilZero.string_of_uint.
  destruct (N.to_uint (Z.to_N q)); discriminate.
Qed.

(** *** Integers as frame numbers *)

Lemma float_of_magnitude_whole s p :
  exists v, 0 < v
    /\ millionths (float_of_magnitude s p) = v * 10 ^ 6
    /\ (Z.pos p < 2 ^ 24 -> v = Z.pos p)
    /\ sign_bit (float_of_magnitude s p) = s
    /\ is_finite (float_of_magnitude s p) = true.
Proof.
  unfold float_of_magnitude.
  destruct (Z.leb_spec (Z.log2 (Z.pos p) + 1) 24) as [Hd|Hd].
  - exists (Z.pos p). cbn [millionths sign_bit is_finite].
    split; [lia|]. split; [|now repeat split].
    set (k := 24 - (Z.log2 (Z.pos p) + 1)).
    assert (Hk : 0 <= k) by (unfold k; lia).
    assert (Hp : 0 < 2 ^ k) by (apply Z.pow_pos_nonneg; lia).
    replace (Z.log2 (Z.pos p) + 1 - 24) with (- k) by (unfold k; lia).
    unfold scaled6. rewrite Z2Pos.id by nia.
    destruct (Z.leb_spec 0 (- k)).
    + replace k with 0 by lia. change (- 0) with 0. rewrite !Z.pow_0_r. lia.
    + rewrite Z.opp_involutive.
      replace (Z.pos p * 2 ^ k * 10 ^ 6) with (Z.pos p * 10 ^ 6 * 2 ^ k) by lia.
      now apply round_half_even_exact.
  - assert (Hbig : ~ Z.pos p < 2 ^ 24).
    { intros H. apply Z.log2_lt_pow2 in H; lia. }
    set (sh := Z.log2 (Z.pos p) + 1 - 24).
    assert (Hsh : 0 < sh) by (unfold sh; lia).
    assert (Hp : 0 < 2 ^ sh) by (apply Z.pow_pos_nonneg; lia).
    destruct (round_half_even (Z.pos p) (2 ^ sh) =? 2 ^ 24)%Z;
      cbn [millionths sign_bit is_finite]; unfold scaled6.
    + destruct (Z.leb_spec 0 (sh + 1)); [|lia].
      exists (Z.pos (Z.to_pos (2 ^ 23)) * 2 ^ (sh + 1)).
      split; [|now repeat split].
      apply Z.mul_pos_pos; [lia|]. apply Z.pow_pos_nonneg; lia.
    + destruct (Z.leb_spec 0 sh); [|lia].
      exists (Z.pos (Z.to_pos (round_half_even (Z.pos p) (2 ^ sh))) * 2 ^ sh).
      split; [|now repeat split]. apply Z.mul_pos_pos; lia.
Qed.

End Keys.

Section IntToFloat.

Local Open Scope Z_scope.

(** The conversion of a 32-bit [int] is well-formed binary32 data. *)
Lemma float_of_magnitude_binary32 s p :
  Z.pos p <= 2 ^ 31 -> is_binary32 (float_of_magnitude s p) = true.
Proof.
  intros Hr. unfold float_of_magnitude.
  pose proof (Z.log2_spec (Z.pos p) ltac:(lia)) as [Hlo Hhi].
  pose proof (Z.log2_nonneg (Z.pos p)) as Hl.
  assert (Hl31 : Z.log2 (Z.pos p) <= 31).
  { change 31 with (Z.log2 (2 ^ 31)). now apply Z.log2_le_mono. }
  set (l := Z.log2 (Z.pos p)) in *.
  rewrite Z.pow_succ_r in Hhi by exact Hl.
  destruct (Z.leb_spec (l + 1) 24) as [Hd|Hd]; cbn [is_binary32].
  - set (k := 24 - (l + 1)).
    assert (Hk : 0 <= k) by (unfold k; lia).
    assert (E : 2 ^ l * 2 ^ k = 2 ^ 23).
    { rewrite <- Z.pow_add_r by lia. f_equal. unfold k. lia. }
    assert (Hp : 0 < 2 ^ k) by (apply Z.pow_pos_nonneg; lia).
    rewrite Z2Pos.id by nia.
    change (2 ^ 24) with (2 * 2 ^ 23).
    repeat (apply andb_true_intro; split);
      [apply Z.ltb_lt; nia | apply Z.leb_le; lia | apply Z.leb_le; lia |].
    apply orb_true_intro. left. apply Z.leb_le. nia.
  - set (sh := l + 1 - 24).
    assert (Hsh : 0 < sh <= 8) by (unfold sh; lia).
    assert (Hp : 0 < 2 ^ sh) by (apply Z.pow_pos_nonneg; lia).
    assert (E : 2 ^ l = 2 ^ 23 * 2 ^ sh).
    { rewrite <- Z.pow_add_r by lia. f_equal. unfold sh. lia. }
    destruct (round_half_even_near (Z.pos p) (2 ^ sh) Hp ltac:(lia))
      as [Hn [L U]].
    set (m := round_half_even (Z.pos p) (2 ^ sh)) in *.
    change (2 ^ 23) with 8388608 in *. change (2 ^ 24) with 16777216 in *.
    assert (Hm : 8388608 <= m <= 16777216) by nia.
    destruct (Z.eqb_spec m 16777216) as [Em|Nm]; cbn [is_binary32].
    + repeat (apply andb_true_intro; split);
        [reflexivity | apply Z.leb_le; lia | apply Z.leb_le; lia | reflexivity].
    + rewrite Z2Pos.id by lia.
      repeat (apply andb_true_intro; split);
        [apply Z.ltb_lt; lia | apply Z.leb_le; lia | apply Z.leb_le; lia |].
      apply orb_true_intro. left. apply Z.leb_le. lia.
Qed.

Lemma float_of_int_binary32 n :
  int_range n -> is_binary32 (float_of_int n) = true.
Proof.
  unfold int_range. intros Hr. destruct n as [|p|p]; cbn [float_of_int].
  - reflexivity.
  - apply float_of_magnitude_binary32. lia.
  - apply float_of_magnitude_binary32. lia.
Qed.

End IntToFloat.

(* ================================================================= *)
(** ** The definitions at work *)

Section Examples.

Local Open Scope string_scope.

(** [0.1f] is [13421773 * 2^-27]. *)
Example put_fixed6_tenth :
  put_fixed6 (FFinite false 13421773 (-27)) = "0.100000".
Proof. reflexivity. Qed.

(** [1/128 = 0.0078125] and [3/128 = 0.0234375] are halfway between two
    texts; the even last digit wins. *)
Example put_fixed6_ties :
  put_fixed6 (FFinite false 8388608 (-30)) = "0.007812"
  /\ put_fixed6 (FFinite false 12582912 (-29)) = "0.023438".
Proof. split; reflexivity. Qed.

Example put_fixed6_special :
  put_fixed6 (FZero true) = "-0.000000"
  /\ put_fixed6 (FInf false) = "inf"
  /\ put_fixed6 (FFinite true 1 (-149)) = "-0.000000".
Proof. repeat split; reflexivity. Qed.

Example float_of_int_exact : float_of_int 3 = FFinite false 12582912 (-22).
Proof. reflexivity. Qed.

(** [2^24 + 1] has no [float]; the conversion gives [2^24]. *)
Example float_of_int_rounded :
  float_of_int 16777217 = FFinite false 8388608 1.
Proof. reflexivity. Qed.

Example formatKey_sample :
  formatKey "race.mp4" one_and_half true = "race.mp4-1.500000-z"
  /\ formatKey "race.mp4" one_and_half false = "race.mp4-1.500000".
Proof. split; reflexivity. Qed.

(** Thirty-three insertions: the first one inserted is gone. *)
Example thirty_three_insertions :
  after sample_heap (map (fun a => AddFrame (Some a)) (first_locs 33))
  = Some (holding (List.rev (map Pos.of_nat (seq 2 32)))).
Proof. vm_compute. reflexivity. Qed.

(** Re-inserting the key of the back entry saves it from eviction; a
    lookup does not. *)
Example reinsertion_refreshes :
  after sample_heap
    (map (fun a => AddFrame (Some a)) (first_locs 32)
     ++ [AddFrame (Some 1%positive); AddFrame (Some 33%positive)])
  = Some (holding (33%positive :: 1%positive
                   :: List.rev (map Pos.of_nat (seq 3 30))))
  /\ after sample_heap
       (map (fun a => AddFrame (Some a)) (first_locs 32)
        ++ [GetFrame "race.mp4-1.000000"; AddFrame (Some 33%positive)])
     = Some (holding (List.rev (map Pos.of_nat (seq 2 32)))).
Proof. split; vm_compute; reflexivity. Qed.

End Examples.

(* ================================================================= *)
(** ** Reading the printed number back *)

Section ReadBack.

Local Open Scope Z_scope.
Local Open Scope string_scope.

(** Evaluate the value of a literal digit character in the goal. *)
Ltac eval_digit_value :=
  repeat match goal with
         | |- context [digit_value ?c] =>
             let v := eval vm_compute in (digit_value c) in
             change (digit_value c) with v
         end.

Lemma digit_value_digit d : 0 <= d < 10 -> digit_value (digit d) = d.
Proof.
  intros H. unfold digit_value, digit.
  rewrite nat_ascii_embedding by lia. lia.
Qed.

Lemma digits_value_frac6 r : 0 <= r < 10 ^ 6 -> digits_value (frac6 r) = r.
Proof.
  intros H. unfold digits_value, frac6. cbn [digits_value_from].
  rewrite !digit_value_digit by apply mod10_range.
  rewrite (six_digits r H) at 7. lia.
Qed.

(** The digits of a decimal numeral, read from the left with a start
    value, are the number the library reads from the numeral. *)
Lemma of_uint_acc_value d : forall acc,
  Z.pos (Pos.of_uint_acc d acc)
  = digits_value_from (Z.pos acc) (NilEmpty.string_of_uint d).
Proof.
  induction d; intros acc;
    cbn [Pos.of_uint_acc NilEmpty.string_of_uint digits_value_from];
    try reflexivity; rewrite IHd; f_equal; eval_digit_value; lia.
Qed.

Lemma of_uint_value d :
  Z.of_N (Pos.of_uint d) = digits_value_from 0 (NilEmpty.string_of_uint d).
Proof.
  induction d;
    cbn [Pos.of_uint NilEmpty.string_of_uint digits_value_from Z.of_N];
    try reflexivity; try exact IHd; eval_digit_value;
    apply of_uint_acc_value.
Qed.

Lemma digits_value_decimal q : 0 <= q -> digits_value (decimal q) = q.
Proof.
  intros H. unfold digits_value, decimal.
  pose proof (to_uint_nonnil (Z.to_N q)) as Hn.
  pose proof (DecimalN.Unsigned.of_to (Z.to_N q)) as E.
  unfold N.of_uint in E.
  destruct (N.to_uint (Z.to_N q)) eqn:Ed; try congruence;
    unfold NilZero.string_of_uint; rewrite <- of_uint_value, E; lia.
Qed.

Lemma round_half_even_tie num den :
  0 < den -> 0 <= num ->
  2 * Z.abs (round_half_even num den * den - num) = den ->
  Z.even (round_half_even num den) = true.
Proof.
  intros Hd Hn. unfold round_half_even.
  pose proof (Z.div_mod num den ltac:(lia)) as E.
  pose proof (Z.mod_pos_bound num den Hd) as Hr.
  set (q := num / den) in *. set (r := num mod den) in *.
  destruct (Z.ltb_spec (2 * r) den); [nia|].
  destruct (Z.ltb_spec den (2 * r)); [nia|].
  intros _. destruct (Z.even q) eqn:Ev; [exact Ev|].
  rewrite Z.add_1_r, Z.even_succ, <- Z.negb_even, Ev. reflexivity.
Qed.

(** The distance between the printed magnitude and the magnitude of a
    finite value, as a fraction. *)
Lemma printed_distance x : is_finite x = true ->
  Qabs (Qmake (millionths x) 1000000 - Qabs (F2Q x))
  = Qmake (Z.abs (millionths x * mag_den x - mag_num x * 1000000))
          (1000000 * Z.to_pos (mag_den x)).
Proof.
  intros Hx. rewrite (F2Q_mag x Hx).
  destruct (mag_den_pow2 x) as (k & Hk & E).
  assert (Hd : 0 < mag_den x) by (rewrite E; apply Z.pow_pos_nonneg; lia).
  pose proof (mag_num_nonneg x) as Ha.
  unfold Qabs, Qminus, Qplus, Qopp. cbn [Qnum Qden].
  rewrite Z2Pos.id by lia. f_equal.
  destruct (sign_bit x); f_equal; lia.
Qed.

(** The printed magnitude is the magnitude rounded to millionths: within
    half a millionth, and even in its last digit when exactly halfway. *)
Lemma millionths_nearest x : is_finite x = true ->
  (Qabs (Qmake (millionths x) 1000000 - Qabs (F2Q x)) <= 1 # 2000000)%Q
  /\ ((Qabs (Qmake (millionths x) 1000000 - Qabs (F2Q x)) == 1 # 2000000)%Q ->
      Z.even (millionths x) = true).
Proof.
  intros Hx. rewrite (printed_distance x Hx).
  destruct (mag_den_pow2 x) as (k & Hk & E).
  assert (Hd : 0 < mag_den x) by (rewrite E; apply Z.pow_pos_nonneg; lia).
  pose proof (mag_num_nonneg x) as Ha.
  pose proof (millionths_rounds x) as Hm. change (10 ^ 6) with 1000000 in Hm.
  destruct (round_half_even_near (mag_num x * 1000000) (mag_den x) Hd
              ltac:(lia)) as (_ & L & U).
  rewrite <- Hm in L, U.
  unfold Qle, Qeq. cbn [Qnum Qden].
  rewrite Pos2Z.inj_mul, Z2Pos.id by lia. split.
  - nia.
  - intros H. rewrite Hm. apply round_half_even_tie; lia.
Qed.

End ReadBack.

(* ================================================================= *)
(** ** The frame list: properties *)

(** C1: whatever sequence of calls has run on a fresh list object, it holds
    at most [maxSize] = 32 entries; and every sequence of [addFrame] calls
    with non-null frames does run to the end. *)
Theorem addFrame_size_bounded (heap : loc -> FrameInfo) :
  maxSize = 32%nat
  /\ (forall cs this,
        run heap cs empty_list = Some (tt, this) ->
        (length (frameList this) <= 32)%nat)
  /\ (forall frames : list loc,
        exists this,
          run heap (map (fun a => AddFrame (Some a)) frames) empty_list
          = Some (tt, this)
          /\ (length (frameList this) <= 32)%nat).
Proof.
  assert (H : forall cs this,
             run heap cs empty_list = Some (tt, this) ->
             (length (frameList this) <= 32)%nat).
  { intros cs this Hrun. apply (completed_size heap).
    apply (run_completed heap cs empty_list this); [|exact Hrun].
    left. exists []. split; [reflexivity|]. split; [constructor|].
    apply Nat.le_0_l. }
  split; [reflexivity|]. split; [exact H|].
  intros frames.
  pose proof (run_recency heap _ frames [] (inserted_adds frames)) as Hrun.
  eexists. split; [exact Hrun|]. exact (H _ _ Hrun).
Qed.

Lemma addFrame_size_bounded_witness :
  (length (frameList (holding [3; 2; 1]%positive)) <= 32)%nat.
Proof.
  apply (proj1 (proj2 (addFrame_size_bounded sample_heap))
           [AddFrame (Some 1%positive); GetFrame "race.mp4-1.000000";
            AddFrame (Some 2%positive); AddFrame (Some 3%positive)]).
  vm_compute. reflexivity.
Defined.

(** C2: in a reachable state no two entries have the same key; and
    [addFrame] of a frame whose key is present erases the entry with that
    key, wherever it is, puts the frame in front, and leaves the number of
    entries as it was. *)
Theorem addFrame_existing_key_replaces (heap : loc -> FrameInfo) :
  (forall this, reachable heap this -> NoDup (keys heap this))
  /\ (forall this a,
        reachable heap this ->
        In (Some (key_at heap a)) (keys heap this) ->
        exists l1 old l2,
          frameList this = map Some (l1 ++ old :: l2)
          /\ key_at heap old = key_at heap a
          /\ absent heap (key_at heap a) (l1 ++ l2)
          /\ addFrame heap (Some a) this = Some (tt, holding (a :: l1 ++ l2))
          /\ length (frameList (holding (a :: l1 ++ l2)))
             = length (frameList this)
          /\ NoDup (keys heap (holding (a :: l1 ++ l2)))).
Proof.
  assert (Hnd : forall this, reachable heap this -> NoDup (keys heap this)).
  { intros this Hr. apply reachable_well_formed in Hr.
    destruct Hr as (ls & -> & Hnd & _). now apply NoDup_keys_holding. }
  split; [exact Hnd|].
  intros this a Hr Hin.
  destruct (reachable_well_formed heap this Hr) as (ls & E & Hls & _).
  subst this. apply in_keys_holding in Hin.
  destruct (first_with_key heap (key_at heap a) ls)
    as [(l1 & x & l2 & -> & Hx & Hl1)|Hab].
  - pose proof (absent_after_split heap a l1 x l2 Hls Hx) as Hl2.
    pose proof (addFrame_present heap a l1 x l2 Hx Hl1) as Hadd.
    exists l1, x, l2. repeat split; auto.
    + intros y Hy. apply in_app_or in Hy. destruct Hy; auto.
    + unfold holding; cbn [frameList].
      rewrite !length_map; cbn [length]; rewrite !length_app; cbn [length].
      lia.
    + apply Hnd. exact (reach_add heap a _ _ Hr Hadd).
  - apply absent_iff in Hab. contradiction.
Qed.

Lemma addFrame_existing_key_replaces_witness :
  NoDup (keys sample_heap (holding [3; 2; 1]%positive))
  /\ exists l1 old l2,
       frameList (holding [3; 2; 1]%positive) = map Some (l1 ++ old :: l2)
       /\ key_at sample_heap old = key_at sample_heap 2%positive
       /\ absent sample_heap (key_at sample_heap 2%positive) (l1 ++ l2)
       /\ addFrame sample_heap (Some 2%positive) (holding [3; 2; 1]%positive)
          = Some (tt, holding (2%positive :: l1 ++ l2))
       /\ length (frameList (holding (2%positive :: l1 ++ l2)))
          = length (frameList (holding [3; 2; 1]%positive))
       /\ NoDup (keys sample_heap (holding (2%positive :: l1 ++ l2))).
Proof.
  split.
  - apply (proj1 (addFrame_existing_key_replaces sample_heap)).
    exact (reachable_recency sample_heap [1; 2; 3]%positive).
  - apply (proj2 (addFrame_existing_key_replaces sample_heap)).
    + exact (reachable_recency sample_heap [1; 2; 3]%positive).
    + vm_compute. right. left. reflexivity.
Defined.

(** C3: [addFrame] of a frame with a new key on a reachable list of
    [maxSize] entries drops exactly the back entry and puts the frame in
    front.  The list after any sequence of calls is the recency order of
    the insertions alone (latest insertion first, one entry per key, at most
    [maxSize]), so the back entry is the least recently inserted one and
    interleaved [getFrame] calls change nothing. *)
Theorem addFrame_evicts_least_recently_inserted (heap : loc -> FrameInfo) :
  (forall this a,
      reachable heap this ->
      length (frameList this) = maxSize ->
      ~ In (Some (key_at heap a)) (keys heap this) ->
      addFrame heap (Some a) this
      = Some (tt, {| frameList := Some a :: removelast (frameList this) |})
      /\ frameList this
         = removelast (frameList this) ++ [last (frameList this) nullptr])
  /\ (forall cs frames,
        inserted cs = map Some frames ->
        after heap cs = Some (holding (recency heap frames))
        /\ after heap cs = after heap (map AddFrame (inserted cs))).
Proof.
  split.
  - intros this a Hr Hlen Hnin.
    destruct (reachable_well_formed heap this Hr) as (ls & E & _ & _).
    subst this. rewrite in_keys_holding, <- absent_iff in Hnin.
    unfold holding in Hlen; cbn [frameList] in Hlen.
    rewrite length_map in Hlen. split.
    + rewrite (addFrame_absent heap a ls Hnin), Hlen, Nat.leb_refl.
      unfold holding; cbn [frameList map]. now rewrite removelast_map_Some.
    + unfold holding; cbn [frameList]. apply app_removelast_last.
      destruct ls; [discriminate|discriminate].
  - intros cs frames Hins.
    assert (H : forall cs', inserted cs' = map Some frames ->
                after heap cs' = Some (holding (recency heap frames))).
    { intros cs' H'. unfold after.
      change empty_list with (holding (recency heap [])).
      now rewrite (run_recency heap cs' frames [] H'). }
    split; [now apply H|].
    rewrite (H cs Hins). symmetry. apply H.
    rewrite <- Hins. clear. induction (inserted cs) as [|p l IH];
      [reflexivity|]. cbn [map inserted]. now rewrite IH.
Qed.

Lemma addFrame_evicts_least_recently_inserted_witness :
  addFrame sample_heap (Some 33%positive)
    (holding (recency sample_heap (first_locs 32)))
  = Some (tt, {| frameList :=
                  Some 33%positive
                  :: removelast
                       (frameList
                          (holding (recency sample_heap (first_locs 32)))) |})
  /\ after sample_heap
       [AddFrame (Some 1%positive); GetFrame "race.mp4-1.000000";
        AddFrame (Some 2%positive)]
     = Some (holding [2; 1]%positive).
Proof.
  split.
  - apply (proj1 (addFrame_evicts_least_recently_inserted sample_heap)).
    + exact (reachable_recency sample_heap (first_locs 32)).
    + vm_compute. reflexivity.
    + vm_compute. intros H.
      repeat (destruct H as [H|H]; [discriminate H|]). exact H.
  - apply (proj2 (addFrame_evicts_least_recently_inserted sample_heap)
             _ [1; 2]%positive).
    reflexivity.
Defined.

(** C7: a completed [getFrame] leaves the list object as it was, whether
    the key is found or not; on a list of non-null entries it always
    completes. *)
Theorem getFrame_leaves_list_unchanged (heap : loc -> FrameInfo) :
  (forall this k r this',
      getFrame heap k this = Some (r, this') -> this' = this)
  /\ (forall ls k, exists r,
        getFrame heap k (holding ls) = Some (r, holding ls))
  /\ (forall this k, reachable heap this ->
        exists r, getFrame heap k this = Some (r, this)).
Proof.
  split; [intros this k; exact (getFrame_state heap k this)|].
  split; [intros ls k; exact (getFrame_total heap k ls)|].
  intros this k Hr.
  destruct (reachable_well_formed heap this Hr) as (ls & -> & _).
  exact (getFrame_total heap k ls).
Qed.

Lemma getFrame_leaves_list_unchanged_witness :
  holding [3; 2; 1]%positive = holding [3; 2; 1]%positive
  /\ exists r,
       getFrame sample_heap "race.mp4-9.000000" (holding [3; 2; 1]%positive)
       = Some (r, holding [3; 2; 1]%positive).
Proof.
  split.
  - apply (proj1 (getFrame_leaves_list_unchanged sample_heap)
             (holding [3; 2; 1]%positive) "race.mp4-2.000000"%string
             (Some 2%positive)).
    vm_compute. reflexivity.
  - apply (proj2 (proj2 (getFrame_leaves_list_unchanged sample_heap))).
    exact (reachable_recency sample_heap [1; 2; 3]%positive).
Defined.

(** C8, as stated, fails: [addFrame(nullptr)] on a fresh list completes
    and leaves one null entry; no entry of that list has the key
    ["race.mp4-1.000000"], and [getFrame] of it dereferences the null entry
    instead of returning [nullptr]. *)
Lemma getFrame_miss_on_null_entry :
  after sample_heap [AddFrame nullptr] = Some {| frameList := [nullptr] |}
  /\ ~ In (Some "race.mp4-1.000000"%string)
         (keys sample_heap {| frameList := [nullptr] |})
  /\ getFrame sample_heap "race.mp4-1.000000" {| frameList := [nullptr] |}
     = None
  /\ ~ (forall heap cs this k,
          after heap cs = Some this ->
          ~ In (Some k) (keys heap this) ->
          getFrame heap k this = Some (nullptr, this)).
Proof.
  assert (Hk : ~ In (Some "race.mp4-1.000000"%string)
                 (keys sample_heap {| frameList := [nullptr] |})).
  { cbn. intros [H|[]]. discriminate H. }
  repeat split; try reflexivity; try exact Hk.
  intros H.
  specialize (H sample_heap [AddFrame nullptr] {| frameList := [nullptr] |}
                "race.mp4-1.000000"%string eq_refl Hk).
  discriminate H.
Qed.

(** C8, amended: on a list of non-null entries (every list reachable by
    inserting non-null frames is one), [getFrame] with a key that no entry
    has completes and returns [nullptr]. *)
Theorem getFrame_miss_returns_nullptr (heap : loc -> FrameInfo) :
  (forall ls k,
      ~ In k (map (key_at heap) ls) ->
      getFrame heap k (holding ls) = Some (nullptr, holding ls))
  /\ (forall this k,
        reachable heap this -> ~ In (Some k) (keys heap this) ->
        getFrame heap k this = Some (nullptr, this)).
Proof.
  assert (H : forall ls k,
             ~ In k (map (key_at heap) ls) ->
             getFrame heap k (holding ls) = Some (nullptr, holding ls)).
  { intros ls k Hnin. apply getFrame_absent. now apply absent_iff. }
  split; [exact H|].
  intros this k Hr Hnin.
  destruct (reachable_well_formed heap this Hr) as (ls & -> & _).
  apply H. now rewrite <- in_keys_holding.
Qed.

Lemma getFrame_miss_returns_nullptr_witness :
  getFrame sample_heap "race.mp4-7.000000" (holding [3; 2; 1]%positive)
  = Some (nullptr, holding [3; 2; 1]%positive)
  /\ getFrame sample_heap "race.mp4-2.000000-z" (holding [3; 2; 1]%positive)
     = Some (nullptr, holding [3; 2; 1]%positive).
Proof.
  split.
  - apply (proj1 (getFrame_miss_returns_nullptr sample_heap)).
    vm_compute. intros H.
    repeat (destruct H as [H|H]; [discriminate H|]). exact H.
  - apply (proj2 (getFrame_miss_returns_nullptr sample_heap)).
    + exact (reachable_recency sample_heap [1; 2; 3]%positive).
    + vm_compute. intros H.
      repeat (destruct H as [H|H]; [discriminate H|]). exact H.
Defined.

(** C10: right after a completed [addFrame(frame)], [getFrame(frame->key)]
    returns that very pointer; on a list of non-null entries [addFrame] of
    a non-null frame always completes. *)
Theorem addFrame_then_getFrame (heap : loc -> FrameInfo) :
  (forall this a this',
      addFrame heap (Some a) this = Some (tt, this') ->
      getFrame heap (key_at heap a) this' = Some (Some a, this'))
  /\ (forall ls a, exists this',
        addFrame heap (Some a) (holding ls) = Some (tt, this')
        /\ getFrame heap (key_at heap a) this' = Some (Some a, this')).
Proof.
  assert (H : forall this a this',
             addFrame heap (Some a) this = Some (tt, this') ->
             getFrame heap (key_at heap a) this' = Some (Some a, this')).
  { intros this a this' Hadd.
    destruct (addFrame_front heap _ _ _ Hadd) as [rest ->].
    apply getFrame_front. }
  split; [exact H|].
  intros ls a.
  destruct (first_with_key heap (key_at heap a) ls)
    as [(l1 & x & l2 & -> & Hx & Hl1)|Hab].
  - pose proof (addFrame_present heap a l1 x l2 Hx Hl1) as Hadd.
    eexists. split; [exact Hadd|]. exact (H _ _ _ Hadd).
  - pose proof (addFrame_absent heap a ls Hab) as Hadd.
    eexists. split; [exact Hadd|]. exact (H _ _ _ Hadd).
Qed.

(** Address 4 holds a second descriptor with the key of address 2. *)
Lemma addFrame_then_getFrame_witness :
  getFrame (fun a => sample_heap (if (a =? 4)%positive then 2%positive else a))
    "race.mp4-2.000000" (holding [4; 3; 1]%positive)
  = Some (Some 4%positive, holding [4; 3; 1]%positive).
Proof.
  apply (proj1 (addFrame_then_getFrame
                  (fun a => sample_heap (if (a =? 4)%positive
                                         then 2%positive else a)))
           (holding [3; 2; 1]%positive) 4%positive).
  vm_compute. reflexivity.
Defined.

(* ================================================================= *)
(** ** Keys: properties *)

Local Open Scope string_scope.

(** C5, as stated, fails: the files differ and the frame numbers [-1] and
    [1] are two apart, yet the keys are the same text ["a--1.000000"]. *)
Lemma formatKey_collision_negative_number :
  is_binary32 minus_one = true /\ is_binary32 one = true
  /\ "a" <> "a-"
  /\ differ_by_1e6 minus_one one
  /\ formatKey "a" minus_one false = "a--1.000000"
  /\ formatKey "a-" one false = "a--1.000000"
  /\ ~ (forall f1 n1 z1 f2 n2 z2,
          f1 <> f2 \/ z1 <> z2 \/ differ_by_1e6 n1 n2 ->
          formatKey f1 n1 z1 <> formatKey f2 n2 z2).
Proof.
  assert (Hd : differ_by_1e6 minus_one one) by (vm_compute; discriminate).
  repeat split; try reflexivity; try discriminate; try exact Hd.
  intros H.
  apply (H "a" minus_one false "a-" one false); [|reflexivity].
  left. discriminate.
Qed.

(** C5, amended: over frame numbers of one sign (all non-negative ones, for
    instance) [formatKey] is injective at 6 decimals: two triples whose
    files differ, or whose zoom flags differ, or whose frame numbers differ
    by at least [1e-6], get different keys. *)
Theorem formatKey_injective_same_sign f1 n1 z1 f2 n2 z2 :
  sign_bit n1 = sign_bit n2 ->
  f1 <> f2 \/ z1 <> z2 \/ differ_by_1e6 n1 n2 ->
  formatKey f1 n1 z1 <> formatKey f2 n2 z2.
Proof.
  intros Hs Hdiff E.
  destruct (formatKey_parts f1 n1 z1 f2 n2 z2 Hs E) as (Hf & Hz & Ht).
  destruct Hdiff as [H|[H|H]]; [exact (H Hf)|exact (H Hz)|].
  exact (unsigned_text_close n1 n2 Hs Ht H).
Qed.

Lemma formatKey_injective_same_sign_witness :
  formatKey "race.mp4" one true <> formatKey "race.mp4" one_and_half true.
Proof.
  apply formatKey_injective_same_sign.
  - reflexivity.
  - right. right. vm_compute. discriminate.
Defined.

(** C6: [formatKey] is a function of its three arguments; the key with
    zoom is the key without zoom followed by ["-z"], the key without zoom
    ends with the number, so the two always differ.  A finite frame number
    is written as its sign, an integer part and exactly six fraction
    digits, and the number these digits denote is the magnitude of the
    frame number rounded to millionths: at most half a millionth away, and
    with an even last digit when exactly halfway. *)
Theorem formatKey_zoom_suffix_distinct f n :
  formatKey f n false = f ++ "-" ++ put_fixed6 n
  /\ formatKey f n true = formatKey f n false ++ "-z"
  /\ formatKey f n false <> formatKey f n true
  /\ (is_finite n = true ->
      exists ip fp,
        put_fixed6 n = sign_str (sign_bit n) ++ ip ++ "." ++ fp
        /\ ip <> "" /\ all_digits ip = true
        /\ String.length fp = 6%nat /\ all_digits fp = true
        /\ (Qabs (fixed_value ip fp - Qabs (F2Q n)) <= 1 # 2000000)%Q
        /\ ((Qabs (fixed_value ip fp - Qabs (F2Q n)) == 1 # 2000000)%Q ->
            Z.even (digits_value ip * 10 ^ 6 + digits_value fp) = true)).
Proof.
  split; [unfold formatKey; now rewrite append_nil_r|].
  split; [apply formatKey_zoom|].
  split.
  - rewrite formatKey_zoom. intros E.
    apply (f_equal String.length) in E. rewrite length_append in E.
    cbn [String.length] in E. lia.
  - intros Hfin. rewrite put_fixed6_sign, (unsigned_text_finite n Hfin).
    pose proof (millionths_nonneg n) as Hn.
    exists (decimal (millionths n / 10 ^ 6)), (frac6 (millionths n mod 10 ^ 6)).
    split; [reflexivity|].
    split; [apply decimal_nonempty|].
    split; [apply decimal_digits|].
    split; [apply frac6_length|].
    split; [apply frac6_digits|].
    assert (E : (digits_value (decimal (millionths n / 10 ^ 6)) * 10 ^ 6
                 + digits_value (frac6 (millionths n mod 10 ^ 6)))%Z
                = millionths n).
    { rewrite digits_value_decimal by (apply Z.div_pos; lia).
      rewrite digits_value_frac6 by (apply Z.mod_pos_bound; lia).
      rewrite (Z.div_mod (millionths n) (10 ^ 6)) at 3 by lia. lia. }
    unfold fixed_value. rewrite E. exact (millionths_nearest n Hfin).
Qed.

Lemma formatKey_zoom_suffix_distinct_witness :
  exists ip fp,
    put_fixed6 one_and_half = sign_str (sign_bit one_and_half) ++ ip ++ "." ++ fp
    /\ ip <> "" /\ all_digits ip = true
    /\ String.length fp = 6%nat /\ all_digits fp = true
    /\ (Qabs (fixed_value ip fp - Qabs (F2Q one_and_half)) <= 1 # 2000000)%Q
    /\ ((Qabs (fixed_value ip fp - Qabs (F2Q one_and_half)) == 1 # 2000000)%Q ->
        Z.even (digits_value ip * 10 ^ 6 + digits_value fp) = true).
Proof.
  apply (proj2 (proj2 (proj2
           (formatKey_zoom_suffix_distinct "race.mp4" one_and_half)))).
  reflexivity.
Defined.

(** C9: the constructor takes an integer, stores it as the [float] frame
    number and sets the key to [formatKey(file, frameNum, false)]: the key
    is the file, a dash and a whole number with the fraction digits
    [000000] (the integer itself when it has at most 24 bits), and it is the
    key [formatKey] gives with zoom for no file and no frame number. *)
Theorem FrameInfo_ctor_key_whole_no_zoom (f : string) (n : Z) :
  frameNum (FrameInfo_ctor n f) = float_of_int n
  /\ file (FrameInfo_ctor n f) = f
  /\ key (FrameInfo_ctor n f) = formatKey f (float_of_int n) false
  /\ (exists v,
        (0 <= v)%Z
        /\ key (FrameInfo_ctor n f)
           = f ++ "-" ++ sign_str (n <? 0)%Z ++ decimal v ++ ".000000"
        /\ ((Z.abs n < 2 ^ 24)%Z -> v = Z.abs n))
  /\ (forall f' n', key (FrameInfo_ctor n f) <> formatKey f' n' true)
  /\ (int_range n -> is_binary32 (float_of_int n) = true).
Proof.
  assert (Hkey : exists v,
             (0 <= v)%Z
             /\ key (FrameInfo_ctor n f)
                = f ++ "-" ++ sign_str (n <? 0)%Z ++ decimal v ++ ".000000"
             /\ ((Z.abs n < 2 ^ 24)%Z -> v = Z.abs n)).
  { cbn [key FrameInfo_ctor]. unfold formatKey. rewrite append_nil_r.
    destruct n as [|p|p]; cbn [float_of_int].
    - exists 0%Z. repeat split; try lia.
    - destruct (float_of_magnitude_whole false p) as (v & Hv & Hm & Hsmall & Hs & Hfin).
      exists v. rewrite put_fixed6_sign, Hs, (unsigned_text_finite _ Hfin), Hm.
      rewrite fixed_of_scaled_whole. repeat split; [lia|exact Hsmall].
    - destruct (float_of_magnitude_whole true p) as (v & Hv & Hm & Hsmall & Hs & Hfin).
      exists v. rewrite put_fixed6_sign, Hs, (unsigned_text_finite _ Hfin), Hm.
      rewrite fixed_of_scaled_whole. repeat split; [lia|exact Hsmall]. }
  repeat split; try exact Hkey; try apply float_of_int_binary32.
  intros f' n' E. destruct Hkey as (v & _ & Hk & _).
  apply (f_equal last_char) in E. rewrite Hk, formatKey_zoom in E.
  rewrite last_char_append in E.
  change (".000000") with ("" ++ String "." "000000") in E.
  rewrite <- !append_assoc, last_char_append in E.
  discriminate E.
Qed.

Lemma FrameInfo_ctor_key_whole_no_zoom_witness :
  key (FrameInfo_ctor 1500 "race.mp4") = "race.mp4-1500.000000"
  /\ key (FrameInfo_ctor 16777217 "race.mp4") = "race.mp4-16777216.000000"
  /\ is_binary32 (float_of_int (-2147483648)) = true.
Proof.
  split; [|split].
  - destruct (FrameInfo_ctor_key_whole_no_zoom "race.mp4" 1500)
      as (_ & _ & _ & (v & _ & Hk & Hv) & _ & _).
    rewrite Hk, (Hv ltac:(reflexivity)). reflexivity.
  - destruct (FrameInfo_ctor_key_whole_no_zoom "race.mp4" 16777217)
      as (_ & _ & Hk & _).
    rewrite Hk. reflexivity.
  - apply (FrameInfo_ctor_key_whole_no_zoom "race.mp4" (-2147483648)).
    unfold int_range. split; [reflexivity|]. vm_compute. reflexivity.
Defined.

(* ================================================================= *)
(** ** The frame list: further lemmas *)

Section FrameListMore.

Local Open Scope list_scope.

Variable heap : loc -> FrameInfo.

Local Abbreviation key_at := (key_at heap).
Local Abbreviation addFrame := (addFrame heap).
Local Abbreviation getFrame := (getFrame heap).
Local Abbreviation absent := (absent heap).
Local Abbreviation other_key := (other_key heap).
Local Abbreviation recency := (recency heap).
Local Abbreviation first_entry := (first_entry heap).

Lemma first_entry_split k l1 x l2 :
  key_at x = k -> absent k l1 -> first_entry k (l1 ++ x :: l2) = Some x.
Proof.
  intros Hx Hl1. induction l1 as [|y l1 IH]; cbn [app first_entry].
  - now rewrite Hx, String.eqb_refl.
  - destruct (String.eqb_spec (key_at y) k) as [E|N].
    + exfalso. exact (Hl1 y (or_introl eq_refl) E).
    + apply IH. intros z Hz. apply Hl1. now right.
Qed.

Lemma first_entry_absent k ls : absent k ls -> first_entry k ls = nullptr.
Proof.
  intros Hab. induction ls as [|y ls IH]; cbn [first_entry]; [reflexivity|].
  destruct (String.eqb_spec (key_at y) k) as [E|N].
  - exfalso. exact (Hab y (or_introl eq_refl) E).
  - apply IH. intros z Hz. apply Hab. now right.
Qed.

(** [getFrame] on non-null entries answers with the first entry that has
    the key. *)
Lemma getFrame_first_entry k ls :
  getFrame k (holding ls) = Some (first_entry k ls, holding ls).
Proof.
  destruct (first_with_key heap k ls) as [(l1 & x & l2 & -> & Hx & Hl1)|Hab].
  - rewrite (first_entry_split k l1 x l2 Hx Hl1).
    now apply getFrame_present.
  - rewrite (first_entry_absent k ls Hab). now apply getFrame_absent.
Qed.

Lemma first_entry_some k ls a :
  first_entry k ls = Some a -> In a ls /\ key_at a = k.
Proof.
  induction ls as [|y ls IH]; cbn [first_entry]; [discriminate|].
  destruct (String.eqb_spec (key_at y) k) as [E|N].
  - intros [= <-]. split; [now left|exact E].
  - intros H. destruct (IH H). split; [now right|assumption].
Qed.

Lemma first_entry_none k ls : first_entry k ls = nullptr -> absent k ls.
Proof.
  induction ls as [|y ls IH]; cbn [first_entry]; [intros _ ? []|].
  destruct (String.eqb_spec (key_at y) k) as [E|N]; [discriminate|].
  intros H z [<-|Hz]; [exact N|]. now apply IH.
Qed.




(** *** Histories *)

Lemma latest_first_distinct l :
  NoDup (map key_at l) -> latest_first heap l = l.
Proof.
  induction l as [|x l IH]; cbn [map latest_first]; [reflexivity|].
  intros H. inversion H as [|? ? Hx Hl]; subst.
  rewrite (IH Hl), filter_absent; [reflexivity|].
  intros y Hy E. apply Hx. rewrite <- E. now apply in_map.
Qed.

Lemma latest_first_distinct_prefix l r :
  NoDup (map key_at l) -> exists r', latest_first heap (l ++ r) = l ++ r'.
Proof.
  induction l as [|x l IH]; cbn [map app latest_first]; intros H.
  - now exists (latest_first heap r).
  - inversion H as [|? ? Hx Hl]; subst.
    destruct (IH Hl) as [r' ->]. rewrite filter_app.
    exists (filter (other_key x) r'). rewrite filter_absent; [reflexivity|].
    intros y Hy E. apply Hx. rewrite <- E. now apply in_map.
Qed.

Lemma absent_filter a x l : absent (key_at a) l ->
  absent (key_at a) (filter (other_key x) l).
Proof. intros H y Hy. apply filter_In in Hy. now apply H. Qed.

Lemma length_filter_le (f : loc -> bool) l :
  (length (filter f l) <= length l)%nat.
Proof.
  induction l as [|y l IH]; cbn [filter length]; [constructor|].
  destruct (f y); cbn [length]; lia.
Qed.

(** A frame with no later insertion under its key stands in the order
    behind at most as many frames as were inserted after it. *)
Lemma latest_first_keeps a l r :
  absent (key_at a) l ->
  exists pre post,
    latest_first heap (l ++ a :: r) = pre ++ a :: post
    /\ (length pre <= length l)%nat /\ absent (key_at a) pre.
Proof.
  induction l as [|x l IH]; cbn [app latest_first]; intros Hab.
  - exists [], (filter (other_key a) (latest_first heap r)).
    repeat split; [constructor|intros ? []].
  - destruct IH as (pre & post & -> & Hlen & Hpre).
    { intros y Hy. apply Hab. now right. }
    assert (Hxa : key_at x <> key_at a) by (apply Hab; now left).
    exists (x :: filter (other_key x) pre), (filter (other_key x) post).
    rewrite filter_app. cbn [filter].
    replace (other_key x a) with true; [cbn [app]; repeat split|].
    + pose proof (length_filter_le (other_key x) pre). cbn [length]. lia.
    + intros y [<-|Hy]; [exact Hxa|]. now apply (absent_filter a x pre).
    + symmetry. unfold other_key. apply negb_true_iff.
      apply String.eqb_neq. congruence.
Qed.

(** *** Sizes *)

Lemma find_if_le pred l it : find_if pred l = Some it -> (it <= length l)%nat.
Proof.
  revert it. induction l as [|f l IH]; cbn [find_if length]; intros it.
  - intros [= <-]. constructor.
  - destruct (pred f) as [[|]|]; [intros [= <-]; lia| |discriminate].
    destruct (find_if pred l) as [j|]; [|discriminate].
    intros [= <-]. specialize (IH j eq_refl). lia.
Qed.

Lemma length_erase it (l : list shared_ptr) :
  (it < length l)%nat -> S (length (erase it l)) = length l.
Proof.
  intros H. unfold erase.
  rewrite length_app, length_firstn, length_skipn. lia.
Qed.

(** One [addFrame] keeps the number of entries or adds one. *)
Lemma addFrame_size_step p this this' :
  addFrame p this = Some (tt, this') ->
  (length (frameList this) <= length (frameList this')
   <= S (length (frameList this)))%nat.
Proof.
  unfold addFrame, bind, get_frameList, undefined, set_frameList,
    push_front, pop_back.
  destruct (find_if (same_key heap p) (frameList this)) as [it|] eqn:Hf;
    [|discriminate].
  apply find_if_le in Hf.
  destruct (Nat.eqb_spec it (length (frameList this))) as [E|N]; cbn [negb].
  - destruct (Nat.leb_spec maxSize (length (frameList this))) as [Hfull|Hroom];
      intros [= <-]; cbn [frameList length]; [|lia].
    assert (Hne : frameList this <> []).
    { intros E0. rewrite E0 in Hfull. now apply Nat.nle_succ_0 in Hfull. }
    rewrite (length_removelast_cons _ _ Hne). lia.
  - intros [= <-]; cbn [frameList length].
    rewrite length_erase by lia. lia.
Qed.

Lemma exec_size_step c this this' :
  exec heap c this = Some (tt, this') ->
  (length (frameList this) <= length (frameList this'))%nat.
Proof.
  destruct c as [p|k]; cbn [exec].
  - intros H. now apply addFrame_size_step in H.
  - unfold bind. destruct (getFrame k this) as [[r this1]|] eqn:Hget;
      [|discriminate].
    apply getFrame_state in Hget. subst this1.
    unfold ret. now intros [= <-].
Qed.

Lemma run_size_mono cs : forall this this',
  run heap cs this = Some (tt, this') ->
  (length (frameList this) <= length (frameList this'))%nat.
Proof.
  induction cs as [|c cs IH]; intros this this'; cbn [run].
  - unfold ret. now intros [= <-].
  - unfold bind.
    destruct (exec heap c this) as [[[] this1]|] eqn:Hc; [|discriminate].
    intros H. apply exec_size_step in Hc. apply IH in H. lia.
Qed.

(** *** Every well-formed list is reached *)

Lemma recency_rev_distinct ls :
  NoDup (map key_at ls) -> (length ls <= maxSize)%nat ->
  recency (rev ls) = ls.
Proof.
  intros Hnd Hlen. unfold recency.
  rewrite rev_involutive, latest_first_distinct by exact Hnd.
  now apply firstn_all2.
Qed.

Lemma run_app cs1 cs2 this :
  run heap (cs1 ++ cs2) this
  = match run heap cs1 this with
    | Some (_, this1) => run heap cs2 this1
    | None => None
    end.
Proof.
  revert this. induction cs1 as [|c cs1 IH]; intros this; cbn [app run].
  - reflexivity.
  - unfold bind. destruct (exec heap c this) as [[[] this1]|]; [|reflexivity].
    apply IH.
Qed.

Lemma same_key_entry (l : list loc) a b :
  NoDup (map key_at l) -> In a l -> In b l -> key_at a = key_at b -> a = b.
Proof.
  induction l as [|y l IH]; cbn [map]; intros Hnd Ha Hb E; [destruct Ha|].
  inversion Hnd as [|? ? Hy Hl]; subst.
  destruct Ha as [<-|Ha], Hb as [<-|Hb]; auto.
  - exfalso. apply Hy. rewrite E. now apply in_map.
  - exfalso. apply Hy. rewrite <- E. now apply in_map.
Qed.

(** [find_if] runs into a null entry that no accepted entry precedes. *)
Lemma find_if_null pred (l1 : list loc) rest :
  (forall y, In y l1 -> pred (Some y) = Some false) ->
  pred nullptr = None ->
  find_if pred (map Some l1 ++ nullptr :: rest) = None.
Proof.
  intros H Hn. induction l1 as [|y l1 IH]; cbn [map app find_if].
  - now rewrite Hn.
  - rewrite (H y (or_introl eq_refl)), IH; [reflexivity|].
    intros z Hz. apply H. now right.
Qed.

End FrameListMore.

(* ================================================================= *)
(** ** Keys: further lemmas *)

Section KeysMore.

Local Open Scope Z_scope.
Local Open Scope string_scope.

Lemma append_inv_head s t u : s ++ t = s ++ u -> t = u.
Proof.
  induction s as [|c s IH]; cbn [append]; [auto|].
  intros [= E]. now apply IH.
Qed.

(** The unsigned text starts with a character other than ['-']. *)
Lemma unsigned_text_head x :
  exists c t, unsigned_text x = String c t /\ c <> "-"%char.
Proof.
  pose proof (unsigned_text_no_dash x) as Hno.
  destruct (unsigned_text x) as [|c t] eqn:E.
  - exfalso. destruct x; cbn [unsigned_text] in E; try discriminate;
      unfold fixed_of_scaled in E;
      match type of E with
      | decimal ?q ++ _ = _ => pose proof (decimal_nonempty q) as Hd;
                                destruct (decimal q); [now apply Hd|discriminate]
      end.
  - exists c, t. split; [reflexivity|].
    intros ->. apply Hno. now left.
Qed.

(** The printed number gives back the sign bit and the unsigned text. *)
Lemma put_fixed6_inj x y :
  put_fixed6 x = put_fixed6 y ->
  sign_bit x = sign_bit y /\ unsigned_text x = unsigned_text y.
Proof.
  rewrite !put_fixed6_sign.
  destruct (unsigned_text_head x) as (c & t & -> & Hc).
  destruct (unsigned_text_head y) as (c' & t' & -> & Hc').
  destruct (sign_bit x), (sign_bit y); cbn [sign_str append].
  - intros [= -> ->]. now split.
  - intros [= E _]. now destruct Hc'.
  - intros [= E _]. now destruct Hc.
  - intros E. now split.
Qed.

Lemma sign_bit_float_of_int n : sign_bit (float_of_int n) = (n <? 0)%Z.
Proof.
  destruct n as [|p|p]; cbn [float_of_int]; try reflexivity;
    now destruct (float_of_magnitude_whole false p) as (_ & _ & _ & _ & -> & _)
    || now destruct (float_of_magnitude_whole true p) as (_ & _ & _ & _ & -> & _).
Qed.

(** The unsigned text of a converted [int] of at most 24 bits. *)
Lemma unsigned_text_float_of_int n :
  Z.abs n < 2 ^ 24 ->
  unsigned_text (float_of_int n) = fixed_of_scaled (Z.abs n * 10 ^ 6).
Proof.
  intros Hn. destruct n as [|p|p]; cbn [float_of_int]; [reflexivity| |].
  - destruct (float_of_magnitude_whole false p) as (v & _ & Hm & Hv & _ & Hfin).
    rewrite (unsigned_text_finite _ Hfin), Hm, (Hv Hn). reflexivity.
  - destruct (float_of_magnitude_whole true p) as (v & _ & Hm & Hv & _ & Hfin).
    rewrite (unsigned_text_finite _ Hfin), Hm, (Hv Hn). reflexivity.
Qed.

(** The key the constructor sets never carries the zoom suffix. *)
Lemma FrameInfo_ctor_key_last n f :
  last_char (key (FrameInfo_ctor n f)) = "0"%char.
Proof.
  cbn [key FrameInfo_ctor]. unfold formatKey.
  rewrite append_nil_r, put_fixed6_sign.
  assert (H : exists v, unsigned_text (float_of_int n)
                        = decimal v ++ String "." "000000").
  { destruct n as [|p|p]; cbn [float_of_int].
    - now exists 0.
    - destruct (float_of_magnitude_whole false p) as (v & _ & Hm & _ & _ & Hfin).
      exists v. now rewrite (unsigned_text_finite _ Hfin), Hm,
                  fixed_of_scaled_whole.
    - destruct (float_of_magnitude_whole true p) as (v & _ & Hm & _ & _ & Hfin).
      exists v. now rewrite (unsigned_text_finite _ Hfin), Hm,
                  fixed_of_scaled_whole. }
  destruct H as [v ->].
  rewrite <- !append_assoc. now rewrite last_char_append.
Qed.

Lemma formatKey_zoom_last f n : last_char (formatKey f n true) = "z"%char.
Proof. rewrite formatKey_zoom. now rewrite last_char_append. Qed.

End KeysMore.

(* ================================================================= *)
(** ** The frame list: further properties *)

Local Close Scope string_scope.
Local Open Scope list_scope.

(** X1: on non-null entries [getFrame] answers with an entry that has the
    requested key whenever one exists, and with [nullptr] only when none
    does; where the keys are pairwise distinct, the key of any entry finds
    that very entry. *)
Theorem getFrame_answer_is_first_match (heap : loc -> FrameInfo) ls k :
  (forall r, getFrame heap k (holding ls) = Some (r, holding ls) ->
     match r with
     | Some b => In b ls /\ key_at heap b = k
     | None => absent heap k ls
     end)
  /\ (forall a, In a ls -> key_at heap a = k ->
        exists b, getFrame heap k (holding ls) = Some (Some b, holding ls)
                  /\ In b ls /\ key_at heap b = k)
  /\ (forall a, NoDup (map (key_at heap) ls) -> In a ls -> key_at heap a = k ->
        getFrame heap k (holding ls) = Some (Some a, holding ls)).
Proof.
  assert (Hfound : forall a, In a ls -> key_at heap a = k ->
            exists b, first_entry heap k ls = Some b
                      /\ In b ls /\ key_at heap b = k).
  { intros a Ha Hk. destruct (first_entry heap k ls) as [b|] eqn:E.
    - exists b. split; [reflexivity|]. now apply first_entry_some.
    - exfalso. exact (first_entry_none heap k ls E a Ha Hk). }
  split; [|split].
  - intros r. rewrite getFrame_first_entry. intros [= <-].
    destruct (first_entry heap k ls) as [b|] eqn:E.
    + now apply first_entry_some.
    + now apply first_entry_none.
  - intros a Ha Hk. destruct (Hfound a Ha Hk) as (b & E & Hb).
    exists b. now rewrite getFrame_first_entry, E.
  - intros a Hnd Ha Hk. destruct (Hfound a Ha Hk) as (b & E & Hb & Hkb).
    rewrite getFrame_first_entry, E.
    now rewrite (same_key_entry heap ls a b Hnd Ha Hb) by congruence.
Qed.

Lemma getFrame_answer_is_first_match_witness :
  getFrame sample_heap "race.mp4-1.000000" (holding [3; 2; 1]%positive)
  = Some (Some 1%positive, holding [3; 2; 1]%positive)
  /\ (exists b,
        getFrame sample_heap "race.mp4-2.000000" (holding [3; 2; 1]%positive)
        = Some (Some b, holding [3; 2; 1]%positive)
        /\ In b [3; 2; 1]%positive
        /\ key_at sample_heap b = "race.mp4-2.000000"%string)
  /\ In 3%positive [3; 2; 1]%positive
     /\ key_at sample_heap 3%positive = "race.mp4-3.000000"%string.
Proof.
  split; [|split].
  - apply (proj2 (proj2 (getFrame_answer_is_first_match sample_heap
                           [3; 2; 1]%positive "race.mp4-1.000000"%string))).
    + vm_compute. repeat constructor; intros H;
        repeat (destruct H as [H|H]; [discriminate H|]); exact H.
    + right. right. left. reflexivity.
    + reflexivity.
  - apply (proj1 (proj2 (getFrame_answer_is_first_match sample_heap
                           [3; 2; 1]%positive "race.mp4-2.000000"%string))
             2%positive).
    + right. left. reflexivity.
    + reflexivity.
  - apply (proj1 (getFrame_answer_is_first_match sample_heap
                    [3; 2; 1]%positive "race.mp4-3.000000"%string)
             (Some 3%positive)).
    vm_compute. reflexivity.
Defined.

(** X2: [addFrame(nullptr)] on the empty list completes and leaves one null
    entry, on a list with entries it dereferences the null argument.  A null
    entry in the list makes every later call undefined that reaches it: a
    [getFrame] or an [addFrame] whose key no entry before the null one
    has. *)
Theorem addFrame_nullptr_poisons (heap : loc -> FrameInfo) :
  addFrame heap nullptr empty_list = Some (tt, {| frameList := [nullptr] |})
  /\ (forall y ls, addFrame heap nullptr (holding (y :: ls)) = None)
  /\ (forall l1 rest k,
        absent heap k l1 ->
        getFrame heap k {| frameList := map Some l1 ++ nullptr :: rest |}
        = None)
  /\ (forall l1 rest a,
        absent heap (key_at heap a) l1 ->
        addFrame heap (Some a)
          {| frameList := map Some l1 ++ nullptr :: rest |}
        = None)
  /\ (forall rest p,
        addFrame heap p {| frameList := nullptr :: rest |} = None).
Proof.
  split; [reflexivity|]. split; [reflexivity|]. split; [|split].
  - intros l1 rest k Hab.
    unfold getFrame, bind, get_frameList; cbn [frameList].
    rewrite find_if_null; [reflexivity| |reflexivity].
    intros y Hy. apply has_key_false. now apply Hab.
  - intros l1 rest a Hab.
    unfold addFrame, bind, get_frameList; cbn [frameList].
    rewrite find_if_null; [reflexivity| |reflexivity].
    intros y Hy. apply same_key_false. now apply Hab.
  - intros rest p.
    unfold addFrame, bind, get_frameList; cbn [frameList find_if].
    reflexivity.
Qed.

Lemma addFrame_nullptr_poisons_witness :
  getFrame sample_heap "race.mp4-9.000000"
    {| frameList := map Some [3; 2]%positive ++ nullptr :: [Some 1%positive] |}
  = None
  /\ addFrame sample_heap (Some 9%positive)
       {| frameList := map Some [3; 2]%positive ++ nullptr :: [Some 1%positive] |}
     = None.
Proof.
  split.
  - apply (proj1 (proj2 (proj2 (addFrame_nullptr_poisons sample_heap)))).
    intros y Hy. vm_compute in Hy.
    repeat (destruct Hy as [<-|Hy]; [vm_compute; discriminate|]).
    destruct Hy.
  - apply (proj1 (proj2 (proj2 (proj2 (addFrame_nullptr_poisons sample_heap))))).
    intros y Hy. vm_compute in Hy.
    repeat (destruct Hy as [<-|Hy]; [vm_compute; discriminate|]).
    destruct Hy.
Defined.



(** X4: inserting the same frame twice in a row is inserting it once. *)
Theorem addFrame_twice (heap : loc -> FrameInfo) this a this' :
  addFrame heap (Some a) this = Some (tt, this') ->
  addFrame heap (Some a) this' = Some (tt, this').
Proof.
  intros Hadd. destruct (addFrame_front heap _ _ _ Hadd) as [rest ->].
  unfold addFrame, bind, get_frameList; cbn [frameList find_if].
  rewrite same_key_true by reflexivity. reflexivity.
Qed.

Lemma addFrame_twice_witness :
  addFrame sample_heap (Some 2%positive) (holding [2; 3; 1]%positive)
  = Some (tt, holding [2; 3; 1]%positive).
Proof.
  apply (addFrame_twice sample_heap (holding [3; 2; 1]%positive)).
  vm_compute. reflexivity.
Defined.

(** X5: a frame stays in the list at least until [maxSize] further frames
    have been inserted: after its insertion and fewer than [maxSize]
    insertions under other keys (lookups in between as one likes) a lookup
    of its key answers with it. *)
Theorem frame_survives_insertions (heap : loc -> FrameInfo) cs h a fs :
  inserted cs = map Some (h ++ a :: fs) ->
  (length fs < maxSize)%nat ->
  absent heap (key_at heap a) fs ->
  exists this,
    after heap cs = Some this
    /\ getFrame heap (key_at heap a) this = Some (Some a, this).
Proof.
  intros Hins Hlen Hab.
  exists (holding (recency heap (h ++ a :: fs))). split.
  - unfold after. change empty_list with (holding (recency heap [])).
    now rewrite (run_recency heap cs _ [] Hins).
  - unfold recency. rewrite rev_app_distr. cbn [rev]. rewrite <- app_assoc.
    cbn [app].
    destruct (latest_first_keeps heap a (rev fs) (rev h))
      as (pre & post & -> & Hpre & Habs).
    { intros y Hy. apply Hab. now apply in_rev. }
    rewrite length_rev in Hpre.
    rewrite firstn_app, (firstn_all2 pre) by lia.
    destruct (maxSize - length pre)%nat as [|n] eqn:E; [lia|].
    rewrite firstn_cons. now apply getFrame_present.
Qed.

Lemma frame_survives_insertions_witness :
  exists this,
    after sample_heap
      (AddFrame (Some 1%positive) :: GetFrame "race.mp4-5.000000"
       :: map (fun a => AddFrame (Some a)) (map Pos.of_nat (seq 2 31)))
    = Some this
    /\ getFrame sample_heap (key_at sample_heap 1%positive) this
       = Some (Some 1%positive, this).
Proof.
  apply (frame_survives_insertions sample_heap _ [] 1%positive
           (map Pos.of_nat (seq 2 31))).
  - reflexivity.
  - vm_compute. repeat constructor.
  - intros y Hy. vm_compute in Hy.
    repeat (destruct Hy as [<-|Hy]; [vm_compute; discriminate|]).
    destruct Hy.
Defined.

(** X6: [maxSize] insertions under pairwise distinct other keys push a
    frame out: a lookup of its key then answers [nullptr]. *)
Theorem frame_evicted_by_new_keys (heap : loc -> FrameInfo) cs h a fs :
  inserted cs = map Some (h ++ a :: fs) ->
  (maxSize <= length fs)%nat ->
  NoDup (map (key_at heap) fs) ->
  absent heap (key_at heap a) fs ->
  exists this,
    after heap cs = Some this
    /\ getFrame heap (key_at heap a) this = Some (nullptr, this).
Proof.
  intros Hins Hlen Hnd Hab.
  exists (holding (recency heap (h ++ a :: fs))). split.
  - unfold after. change empty_list with (holding (recency heap [])).
    now rewrite (run_recency heap cs _ [] Hins).
  - apply getFrame_absent. unfold recency.
    rewrite rev_app_distr. cbn [rev]. rewrite <- app_assoc. cbn [app].
    destruct (latest_first_distinct_prefix heap (rev fs) (a :: rev h))
      as [r' ->].
    { rewrite map_rev. now apply NoDup_rev. }
    rewrite firstn_app.
    replace (maxSize - length (rev fs))%nat with 0%nat
      by (rewrite length_rev; lia).
    rewrite firstn_O, app_nil_r.
    apply absent_firstn. intros y Hy. apply Hab. now apply in_rev.
Qed.

Lemma frame_evicted_by_new_keys_witness :
  exists this,
    after sample_heap
      (AddFrame (Some 1%positive)
       :: map (fun a => AddFrame (Some a)) (map Pos.of_nat (seq 2 32)))
    = Some this
    /\ getFrame sample_heap (key_at sample_heap 1%positive) this
       = Some (nullptr, this).
Proof.
  apply (frame_evicted_by_new_keys sample_heap _ [] 1%positive
           (map Pos.of_nat (seq 2 32))).
  - reflexivity.
  - vm_compute. repeat constructor.
  - vm_compute. repeat constructor; intros H;
      repeat (destruct H as [H|H]; [discriminate H|]); exact H.
  - intros y Hy. vm_compute in Hy.
    repeat (destruct Hy as [<-|Hy]; [vm_compute; discriminate|]).
    destruct Hy.
Defined.

(** X7: frames inserted under pairwise distinct keys: the list holds the
    last [maxSize] of them, the latest in front. *)
Theorem distinct_keys_last_frames (heap : loc -> FrameInfo) frames :
  NoDup (map (key_at heap) frames) ->
  after heap (map (fun a => AddFrame (Some a)) frames)
  = Some (holding (firstn maxSize (rev frames))).
Proof.
  intros Hnd. unfold after. change empty_list with (holding (recency heap [])).
  rewrite (run_recency heap _ frames [] (inserted_adds frames)).
  cbn [option_map snd app]. unfold recency.
  rewrite latest_first_distinct; [reflexivity|].
  rewrite map_rev. now apply NoDup_rev.
Qed.

Lemma distinct_keys_last_frames_witness :
  after sample_heap
    (map (fun a => AddFrame (Some a)) [1; 2; 3]%positive)
  = Some (holding (firstn maxSize (rev [1; 2; 3]%positive))).
Proof.
  apply distinct_keys_last_frames.
  vm_compute. repeat constructor; intros H;
    repeat (destruct H as [H|H]; [discriminate H|]); exact H.
Defined.

(** X8: no call takes an entry away without putting one in: one completed
    [addFrame] keeps the number of entries or adds one, and along any
    completed sequence of calls the number never goes down. *)
Theorem size_never_shrinks (heap : loc -> FrameInfo) :
  (forall p this this',
      addFrame heap p this = Some (tt, this') ->
      (length (frameList this) <= length (frameList this')
       <= S (length (frameList this)))%nat)
  /\ (forall cs this this',
        run heap cs this = Some (tt, this') ->
        (length (frameList this) <= length (frameList this'))%nat).
Proof.
  split.
  - exact (addFrame_size_step heap).
  - intros cs this this'. exact (run_size_mono heap cs this this').
Qed.

Lemma size_never_shrinks_witness :
  (length (frameList (holding [3; 2; 1]%positive))
   <= length (frameList (holding [2; 3; 1]%positive))
   <= S (length (frameList (holding [3; 2; 1]%positive))))%nat
  /\ (length (frameList (holding [1]%positive))
      <= length (frameList (holding [3; 2; 1]%positive)))%nat.
Proof.
  split.
  - apply (proj1 (size_never_shrinks sample_heap) (Some 2%positive)).
    vm_compute. reflexivity.
  - apply (proj2 (size_never_shrinks sample_heap)
             [AddFrame (Some 2%positive); GetFrame "race.mp4-1.000000";
              AddFrame (Some 3%positive)]).
    vm_compute. reflexivity.
Defined.

(** X9: the reachable lists are exactly the lists of non-null entries with
    pairwise distinct keys and at most [maxSize] entries. *)
Theorem reachable_iff_well_formed (heap : loc -> FrameInfo) this :
  reachable heap this <-> well_formed heap this.
Proof.
  split; [apply reachable_well_formed|].
  intros (ls & -> & Hnd & Hlen).
  rewrite <- (recency_rev_distinct heap ls Hnd Hlen).
  apply reachable_recency.
Qed.

Lemma reachable_iff_well_formed_witness :
  reachable sample_heap (holding [5; 9; 2]%positive)
  /\ well_formed sample_heap (holding (recency sample_heap [1; 2; 3]%positive)).
Proof.
  split.
  - apply (proj2 (reachable_iff_well_formed sample_heap _)).
    exists [5; 9; 2]%positive. split; [reflexivity|]. split.
    + vm_compute. repeat constructor; intros H;
        repeat (destruct H as [H|H]; [discriminate H|]); exact H.
    + vm_compute. repeat constructor.
  - apply (proj1 (reachable_iff_well_formed sample_heap _)).
    exact (reachable_recency sample_heap [1; 2; 3]%positive).
Defined.

(* ================================================================= *)
(** ** Keys: further properties *)

Local Open Scope string_scope.

(** X10: for one file two keys are the same text exactly when the zoom
    flags agree, the frame numbers have the same sign bit and their unsigned
    texts agree; for finite frame numbers the last means the same rounded
    number of millionths.  So [0.0] and [-0.0] get different keys. *)
Theorem formatKey_same_file (f : string) (n1 n2 : float) (z1 z2 : bool) :
  (formatKey f n1 z1 = formatKey f n2 z2
   <-> z1 = z2 /\ sign_bit n1 = sign_bit n2
       /\ unsigned_text n1 = unsigned_text n2)
  /\ (is_finite n1 = true -> is_finite n2 = true ->
      (formatKey f n1 z1 = formatKey f n2 z2
       <-> z1 = z2 /\ sign_bit n1 = sign_bit n2
           /\ millionths n1 = millionths n2)).
Proof.
  assert (H : formatKey f n1 z1 = formatKey f n2 z2
              <-> z1 = z2 /\ sign_bit n1 = sign_bit n2
                  /\ unsigned_text n1 = unsigned_text n2).
  { split.
    - intros E.
      assert (Hs : sign_bit n1 = sign_bit n2).
      { pose proof E as E'. unfold formatKey in E'.
        apply append_inv_head in E'. cbn [append] in E'.
        injection E' as E'. rewrite !put_fixed6_sign, !append_assoc in E'.
        destruct (unsigned_text_head n1) as (c1 & t1 & T1 & Hc1).
        destruct (unsigned_text_head n2) as (c2 & t2 & T2 & Hc2).
        rewrite T1, T2 in E'.
        destruct (sign_bit n1), (sign_bit n2); cbn [sign_str append] in E';
          try reflexivity; injection E' as E' _; congruence. }
      destruct (formatKey_parts f n1 z1 f n2 z2 Hs E) as (_ & Hz & Ht).
      auto.
    - intros (-> & Hs & Ht). unfold formatKey.
      now rewrite !put_fixed6_sign, Hs, Ht. }
  split; [exact H|].
  intros H1 H2. rewrite H.
  rewrite (unsigned_text_finite n1 H1), (unsigned_text_finite n2 H2).
  split; intros (Hz & Hs & Hm); repeat split; auto.
  - apply fixed_of_scaled_inj; auto using millionths_nonneg.
  - now rewrite Hm.
Qed.

Lemma formatKey_same_file_witness :
  formatKey "race.mp4" one false
  = formatKey "race.mp4" (FFinite false 8388609 (-23)) false
  /\ formatKey "race.mp4" (FZero false) true
     <> formatKey "race.mp4" (FZero true) true.
Proof.
  split.
  - apply (proj2 (formatKey_same_file "race.mp4" one
                    (FFinite false 8388609 (-23)) false false));
      try reflexivity.
    repeat split; reflexivity.
  - intros E.
    apply (proj1 (formatKey_same_file "race.mp4" (FZero false) (FZero true)
                    true true)) in E.
    destruct E as (_ & E & _). discriminate E.
Defined.

(** X11: frames constructed from integers of one sign and of at most 24
    bits have the same key only if they have the same file and the same
    frame number. *)
Theorem FrameInfo_ctor_key_injective (f1 f2 : string) (n1 n2 : Z) :
  (Z.abs n1 < 2 ^ 24)%Z -> (Z.abs n2 < 2 ^ 24)%Z ->
  (n1 <? 0)%Z = (n2 <? 0)%Z ->
  key (FrameInfo_ctor n1 f1) = key (FrameInfo_ctor n2 f2) ->
  f1 = f2 /\ n1 = n2.
Proof.
  intros H1 H2 Hs E. cbn [key FrameInfo_ctor] in E.
  apply formatKey_parts in E;
    [|now rewrite !sign_bit_float_of_int].
  destruct E as (Hf & _ & Ht). split; [exact Hf|].
  rewrite (unsigned_text_float_of_int n1 H1),
    (unsigned_text_float_of_int n2 H2) in Ht.
  apply fixed_of_scaled_inj in Ht; lia.
Qed.

Lemma FrameInfo_ctor_key_injective_witness :
  "race.mp4" = "race.mp4" /\ 1500%Z = 1500%Z.
Proof.
  apply (FrameInfo_ctor_key_injective "race.mp4" "race.mp4" 1500 1500);
    reflexivity.
Defined.

(** X12: a list whose entries all come from the constructor answers no
    key with the zoom suffix. *)
Theorem constructed_frames_have_no_zoom_key (heap : loc -> FrameInfo) ls f n :
  (forall a, In a ls -> exists m g, heap a = FrameInfo_ctor m g) ->
  getFrame heap (formatKey f n true) (holding ls)
  = Some (nullptr, holding ls).
Proof.
  intros Hctor. apply getFrame_absent. intros a Ha E.
  destruct (Hctor a Ha) as (m & g & Hm).
  unfold key_at in E. rewrite Hm in E.
  apply (f_equal last_char) in E.
  rewrite FrameInfo_ctor_key_last, formatKey_zoom_last in E.
  discriminate E.
Qed.

Lemma constructed_frames_have_no_zoom_key_witness :
  getFrame sample_heap (formatKey "race.mp4" one true)
    (holding [3; 2; 1]%positive)
  = Some (nullptr, holding [3; 2; 1]%positive).
Proof.
  apply constructed_frames_have_no_zoom_key.
  intros a _. exists (Z.pos a), "race.mp4". reflexivity.
Defined.

Section IntegerCollisions.

Local Open Scope Z_scope.

(** The conversion of a 25-bit magnitude. *)
Lemma float_of_magnitude_25 s p :
  2 ^ 24 <= Z.pos p < 2 ^ 25 ->
  float_of_magnitude s p
  = if (round_half_even (Z.pos p) 2 =? 2 ^ 24)%Z
    then FFinite s (Z.to_pos (2 ^ 23)) 2
    else FFinite s (Z.to_pos (round_half_even (Z.pos p) 2)) 1.
Proof.
  intros H. unfold float_of_magnitude.
  assert (E : Z.log2 (Z.pos p) = 24).
  { apply Z.log2_unique; [lia|]. exact H. }
  rewrite E. reflexivity.
Qed.

Lemma round_half_even_odd q :
  round_half_even (2 * q + 1) 2 = if Z.even q then q else q + 1.
Proof.
  unfold round_half_even.
  replace ((2 * q + 1) / 2) with q by (apply Z.div_unique with 1; lia).
  replace ((2 * q + 1) mod 2) with 1 by (apply Z.mod_unique with q; lia).
  reflexivity.
Qed.

Lemma round_half_even_even q : round_half_even (2 * q) 2 = q.
Proof.
  rewrite (Z.mul_comm 2 q). apply round_half_even_exact. lia.
Qed.

(** An odd 25-bit integer converts to the [float] of an even neighbour. *)
Lemma float_of_int_odd_25 n :
  2 ^ 24 < n < 2 ^ 25 -> Z.odd n = true ->
  float_of_int n = float_of_int (n - 1)
  \/ float_of_int n = float_of_int (n + 1).
Proof.
  intros Hn Hodd.
  assert (Hq : n = 2 * (n / 2) + 1).
  { rewrite (Z.div_mod n 2) at 1 by lia.
    rewrite <- Z.bit0_mod, Z.bit0_odd, Hodd. reflexivity. }
  set (q := n / 2) in *.
  assert (Hq24 : 2 ^ 24 <= 2 * q) by lia.
  destruct n as [|p|p]; try lia. cbn [float_of_int].
  rewrite (float_of_magnitude_25 false p) by lia.
  rewrite Hq, round_half_even_odd.
  destruct (Z.even q) eqn:Ev.
  - left. replace (2 * q + 1 - 1) with (2 * q) by lia.
    destruct (2 * q) as [|p'|p'] eqn:E2; try lia. cbn [float_of_int].
    rewrite (float_of_magnitude_25 false p') by lia.
    rewrite <- E2, round_half_even_even. reflexivity.
  - right. replace (2 * q + 1 + 1) with (2 * (q + 1)) by lia.
    destruct (Z.eqb_spec (q + 1) (2 ^ 24)) as [E|N].
    + rewrite E. reflexivity.
    + destruct (2 * (q + 1)) as [|p'|p'] eqn:E2; try lia. cbn [float_of_int].
      rewrite (float_of_magnitude_25 false p') by lia.
      rewrite <- E2, round_half_even_even.
      destruct (Z.eqb_spec (q + 1) (2 ^ 24)); [contradiction|reflexivity].
Qed.

End IntegerCollisions.

(** X13: above [2^24] the constructor no longer separates neighbouring
    frame numbers: an odd frame number between [2^24] and [2^25] gets the
    key of the frame number before it or of the one after it. *)
Theorem FrameInfo_ctor_key_shared_above_2_24 (f : string) (n : Z) :
  (2 ^ 24 < n < 2 ^ 25)%Z -> Z.odd n = true ->
  (key (FrameInfo_ctor n f) = key (FrameInfo_ctor (n - 1) f)
   /\ frameNum (FrameInfo_ctor n f) = frameNum (FrameInfo_ctor (n - 1) f))
  \/ (key (FrameInfo_ctor n f) = key (FrameInfo_ctor (n + 1) f)
      /\ frameNum (FrameInfo_ctor n f) = frameNum (FrameInfo_ctor (n + 1) f)).
Proof.
  intros Hn Hodd. cbn [key frameNum FrameInfo_ctor].
  destruct (float_of_int_odd_25 n Hn Hodd) as [E|E]; rewrite E; auto.
Qed.

Lemma FrameInfo_ctor_key_shared_above_2_24_witness :
  (key (FrameInfo_ctor 16777217 "race.mp4")
   = key (FrameInfo_ctor (16777217 - 1) "race.mp4")
   /\ frameNum (FrameInfo_ctor 16777217 "race.mp4")
      = frameNum (FrameInfo_ctor (16777217 - 1) "race.mp4"))
  \/ (key (FrameInfo_ctor 16777217 "race.mp4")
      = key (FrameInfo_ctor (16777217 + 1) "race.mp4")
      /\ frameNum (FrameInfo_ctor 16777217 "race.mp4")
         = frameNum (FrameInfo_ctor (16777217 + 1) "race.mp4")).
Proof.
  apply FrameInfo_ctor_key_shared_above_2_24.
  - split; reflexivity.
  - reflexivity.
Defined.
